(** * ApiFinder: the extraction pipeline of [apiFinder.py]

    A shallow embedding of the fetch / parse / scan / normalise pipeline and of
    the class loader, with the properties of the specification stated over it.

    Conventions.
    - A Python [str] is a list of code points ([list N]); a [bytes] value is a
      [list byte].
    - A [Set[str]] is a [gset str]: membership is exact string equality and
      iteration order carries no information.
    - [None] is [None]; a call that raises is [Raise e], one that returns is
      [Ok v].
    - What the libraries and the network answer ([requests], [bs4],
      [urllib], [importlib], the thread pool) is a record [World] that the
      program is run in. *)

From Stdlib Require Import NArith.
From Stdlib.Strings Require Import Ascii String Byte.
From stdpp Require Import base list sorting gmap sets.

Local Open Scope N_scope.

(** ** Text *)

Abbreviation str := (list N).
Abbreviation bytes := (list byte).

Global Instance byte_eq_decision : EqDecision byte := Byte.byte_eq_dec.

(** Code points of an ASCII source literal, for writing examples. *)
Definition txt (s : string) : str := N_of_ascii <$> list_ascii_of_string s.
(** The same literal as UTF-8 / ASCII bytes. *)
Definition raw (s : string) : bytes := list_byte_of_string s.

Definition dquote : N := 34.
Definition squote : N := 39.

(** *** [str.strip()]

    [Py_UNICODE_ISSPACE]: the characters Python's argument-less [strip]
    removes. *)
Definition isspace (c : N) : bool :=
  ((9 <=? c) && (c <=? 13)) || ((28 <=? c) && (c <=? 32))
  || (c =? 133) || (c =? 160) || (c =? 5760)
  || ((8192 <=? c) && (c <=? 8202))
  || (c =? 8232) || (c =? 8233) || (c =? 8239) || (c =? 8287) || (c =? 12288).

Fixpoint lstrip (s : str) : str :=
  match s with
  | c :: s' => if isspace c then lstrip s' else s
  | [] => []
  end.

Fixpoint rstrip (s : str) : str :=
  match s with
  | c :: s' =>
      match rstrip s' with
      | [] => if isspace c then [] else [c]
      | r => c :: r
      end
  | [] => []
  end.

(** [s[i:j]] with [i] the first and [j] one past the last non-space index. *)
Definition strip (s : str) : str := rstrip (lstrip s).

(** *** Ordering of [str]: code point by code point, a proper prefix first. *)
Fixpoint str_leb (a b : str) : bool :=
  match a, b with
  | [], _ => true
  | _ :: _, [] => false
  | x :: a', y :: b' =>
      if x <? y then true else if x =? y then str_leb a' b' else false
  end.

Definition str_le (a b : str) : Prop := str_leb a b = true.
Definition str_lt (a b : str) : Prop := str_le a b ∧ a ≠ b.

Global Instance str_le_dec a b : Decision (str_le a b).
Proof. unfold str_le. apply _. Defined.

(** [sorted(xs, key=lambda x: x)]: a stable comparison sort. *)
Definition sorted (xs : list str) : list str := merge_sort str_le xs.

(** ** The Normalizer: [DefaultParsed.clean] *)

(** Truthiness of a [str]. *)
Definition truthy (s : str) : Prop := s ≠ [].

(** [{p.strip() for p in paths if p.strip()}] *)
Definition stripped_set (paths : gset str) : gset str :=
  set_map strip (filter (λ p, truthy (strip p)) paths).

Definition clean (paths : gset str) : list str :=
  sorted (elements (stripped_set paths)).

(** ** [bytes.decode('utf-8', errors='ignore')]

    The decoder of CPython: an ill-formed sequence is dropped up to (not
    including) the byte that breaks it, a truncated sequence at the end of the
    input is dropped whole, and decoding goes on after the dropped bytes. *)

Definition is_continuation (b : N) : bool := (128 <=? b) && (b <=? 191).

Fixpoint decode_utf8_ignore (s : bytes) : str :=
  match s with
  | [] => []
  | b1 :: r1 =>
      let c1 := Byte.to_N b1 in
      if c1 <? 128 then c1 :: decode_utf8_ignore r1
      else if c1 <? 194 then decode_utf8_ignore r1
      else if c1 <? 224 then
        match r1 with
        | [] => []
        | b2 :: r2 =>
            let c2 := Byte.to_N b2 in
            if is_continuation c2
            then (c1 - 192) * 64 + (c2 - 128) :: decode_utf8_ignore r2
            else decode_utf8_ignore r1
        end
      else if c1 <? 240 then
        match r1 with
        | [] => []
        | b2 :: r2 =>
            let c2 := Byte.to_N b2 in
            if negb (is_continuation c2)
               || (if c2 <? 160 then c1 =? 224 else c1 =? 237)
            then decode_utf8_ignore r1
            else
              match r2 with
              | [] => []
              | b3 :: r3 =>
                  let c3 := Byte.to_N b3 in
                  if is_continuation c3
                  then (c1 - 224) * 4096 + (c2 - 128) * 64 + (c3 - 128)
                       :: decode_utf8_ignore r3
                  else decode_utf8_ignore r2
              end
        end
      else if c1 <? 245 then
        match r1 with
        | [] => []
        | b2 :: r2 =>
            let c2 := Byte.to_N b2 in
            if negb (is_continuation c2)
               || (if c2 <? 144 then c1 =? 240 else c1 =? 244)
            then decode_utf8_ignore r1
            else
              match r2 with
              | [] => []
              | b3 :: r3 =>
                  let c3 := Byte.to_N b3 in
                  if negb (is_continuation c3) then decode_utf8_ignore r2
                  else
                    match r3 with
                    | [] => []
                    | b4 :: r4 =>
                        let c4 := Byte.to_N b4 in
                        if is_continuation c4
                        then (c1 - 240) * 262144 + (c2 - 128) * 4096
                             + (c3 - 128) * 64 + (c4 - 128)
                             :: decode_utf8_ignore r4
                        else decode_utf8_ignore r3
                    end
              end
        end
      else decode_utf8_ignore r1
  end.

(** ** The recognition grammar: [DefaultParsed.DEFAULT_RULES]

    The pattern is compiled with [re.VERBOSE]: blanks and [#] comments outside
    a character class are not part of it.  Every quantifier of the pattern
    applies to a character class, so repetition is kept on classes. *)

Inductive item :=
| Chr (c : N)
| Rng (lo hi : N).

(** A bracket expression; [negate] is the leading [^]. *)
Record cset := CSet { negate : bool; members : list item }.

Definition item_has (c : N) (i : item) : bool :=
  match i with
  | Chr d => c =? d
  | Rng lo hi => (lo <=? c) && (c <=? hi)
  end.

Definition cset_has (k : cset) (c : N) : bool :=
  xorb (negate k) (existsb (item_has c) (members k)).

Inductive regex :=
| Eps
| Lit (c : N)
| Cls (k : cset)
| Cat (a b : regex)
| Alt (a b : regex)
| Rep (k : cset) (lo : nat) (hi : option nat).

Declare Scope re_scope.
Delimit Scope re_scope with re.
Bind Scope re_scope with regex.
Infix "⋅" := Cat (at level 41, right associativity) : re_scope.
Infix "│" := Alt (at level 51, right associativity) : re_scope.

Definition ch (a : ascii) : N := N_of_ascii a.

Fixpoint lits (l : str) : regex :=
  match l with
  | [] => Eps
  | c :: l' => Cat (Lit c) (lits l')
  end.

Definition word (s : string) : regex := lits (txt s).

(** The delimiter [(?:dq|sq)], where dq is the double and sq the single
    quote character. *)
Definition quote : regex := (Lit dquote │ Lit squote)%re.

(** The class after the prefix: negated; dq sq > < , ; | blank * ( ) ( % % $ ^ /
    and the escaped backslash, [[] and []]. *)
Definition denied_first : list N := dquote :: squote :: txt "><,;| *()(%%$^/\[]".
Definition first_deny : cset := CSet true (Chr <$> denied_first).
(** The class of the rest: negated; dq sq > < , ; | ( ). *)
Definition denied_rest : list N := dquote :: squote :: txt "><,;|()".
Definition rest_deny : cset := CSet true (Chr <$> denied_rest).
(** [[a-zA-Z0-9_\-/]] *)
Definition seg : cset :=
  CSet false [Rng (ch "a") (ch "z"); Rng (ch "A") (ch "Z"); Rng (ch "0") (ch "9");
              Chr (ch "_"); Chr (ch "-"); Chr (ch "/")].
(** [[a-zA-Z0-9_\-]] *)
Definition name : cset :=
  CSet false [Rng (ch "a") (ch "z"); Rng (ch "A") (ch "Z"); Rng (ch "0") (ch "9");
              Chr (ch "_"); Chr (ch "-")].
(** [[a-zA-Z]] *)
Definition letter : cset := CSet false [Rng (ch "a") (ch "z"); Rng (ch "A") (ch "Z")].
(** [[\?|/]] *)
Definition intro : cset := CSet false [Chr (ch "?"); Chr (ch "|"); Chr (ch "/")].
(** The class of a remainder: negated; dq | sq. *)
Definition denied_tail : list N := [dquote; ch "|"; squote].
Definition tail_deny : cset := CSet true (Chr <$> denied_tail).

(** The three prefixes of group 2 and the extensions of group 4, in the order
    of their alternatives. *)
Definition prefixes : list str := txt <$> ["/"; "../"; "./"]%string.
Definition extensions : list str :=
  txt <$> ["php"; "asp"; "aspx"; "jsp"; "json";
           "action"; "html"; "js"; "txt"; "xml"]%string.

(** The alternation of the literal words [ws]. *)
Fixpoint one_of (ws : list str) : regex :=
  match ws with
  | [] => Eps
  | [w] => lits w
  | w :: ws' => Alt (lits w) (one_of ws')
  end.

(** Group 2: start with [/], [../] or [./]. *)
Definition shape1 : regex :=
  (one_of prefixes
   ⋅ Cls first_deny
   ⋅ Rep rest_deny 1 None)%re.

(** Group 3: relative endpoint with [/], resource name, extension. *)
Definition shape2 : regex :=
  (Rep seg 1 None ⋅ Lit (ch "/")
   ⋅ Rep seg 1 None
   ⋅ Lit (ch ".") ⋅ (Rep letter 1 (Some 4%nat) │ word "action")
   ⋅ ((Cls intro ⋅ Rep tail_deny 0 None) │ Eps))%re.

(** Group 4: file name, listed extension. *)
Definition shape3 : regex :=
  (Rep name 1 None
   ⋅ Lit (ch ".") ⋅ one_of extensions
   ⋅ ((Lit (ch "?") ⋅ Rep tail_deny 0 None) │ Eps))%re.

(** Group 1, the part between the delimiters. *)
Definition group1 : regex := (shape1 │ shape2 │ shape3)%re.

(** ** The matcher: backtracking, leftmost alternative first, greedy
    repetition, as [re] does.  [κ] is what remains to be matched. *)

Section Matcher.
Context {A : Type}.

Definition below (hi : option nat) : bool :=
  match hi with Some O => false | _ => true end.

Definition dec (hi : option nat) : option nat := Nat.pred <$> hi.

(** [k{lo,hi}]: one more character first, stopping only on failure. *)
Fixpoint rep (k : cset) (lo : nat) (hi : option nat) (s : str)
    (κ : str → option A) : option A :=
  let stop := match lo with O => κ s | S _ => None end in
  match s with
  | c :: s' =>
      if cset_has k c && below hi then
        match rep k (Nat.pred lo) (dec hi) s' κ with
        | Some v => Some v
        | None => stop
        end
      else stop
  | [] => stop
  end.

Fixpoint exec (r : regex) (s : str) (κ : str → option A) : option A :=
  match r with
  | Eps => κ s
  | Lit c =>
      match s with
      | x :: s' => if x =? c then κ s' else None
      | [] => None
      end
  | Cls k =>
      match s with
      | x :: s' => if cset_has k x then κ s' else None
      | [] => None
      end
  | Cat a b => exec a s (λ s', exec b s' κ)
  | Alt a b =>
      match exec a s κ with
      | Some v => Some v
      | None => exec b s κ
      end
  | Rep k lo hi => rep k lo hi s κ
  end.
End Matcher.

(** [RULE.match] at the head of [s]: group 1 and the unread rest. *)
Definition match_at (s : str) : option (str * str) :=
  exec quote s (λ s1,
    exec group1 s1 (λ s2,
      exec quote s2 (λ s3,
        Some (take (length s1 - length s2) s1, s3)))).

(** Does [r] match the whole of [w]? *)
Definition matches (r : regex) (w : str) : bool :=
  bool_decide (is_Some (exec r w (λ s, match s with [] => Some () | _ => None end))).

(** A match object: [m.start()], [m.end()], [m.group(1)]. *)
Record Match := MkMatch { m_start : nat; m_end : nat; m_group1 : str }.

(** [RULE.finditer]: left to right, the next search starts where the last
    match ended.  [skip] counts the characters still covered by the last
    match, [pos] is the index of the head of [s] in the text. *)
Fixpoint finditer_from (skip pos : nat) (s : str) : list Match :=
  match s with
  | [] => []
  | _ :: s' =>
      match skip with
      | S n => finditer_from n (S pos) s'
      | O =>
          match match_at s with
          | Some (g, rest) =>
              let len := (length s - length rest)%nat in
              MkMatch pos (pos + len) g :: finditer_from (Nat.pred len) (S pos) s'
          | None => finditer_from 0 (S pos) s'
          end
      end
  end.

Definition finditer (text : str) : list Match := finditer_from 0 0 text.

(** The ScriptScanner on decoded text: [[m.group(1) for m in RULE.finditer(text)]]. *)
Definition scan (text : str) : list str := m_group1 <$> finditer text.

(** [DefaultParsed.extract_urls_from_js]; decoding with [errors='ignore']
    raises nothing, so the handler of the [try] is never entered. *)
Definition extract_urls_from_js (js : bytes) : list str :=
  scan (decode_utf8_ignore js).

(** *** What a pattern denotes, and where a scan yields *)

Definition within (hi : option nat) (n : nat) : Prop :=
  match hi with Some h => (n ≤ h)%nat | None => True end.

Fixpoint lang (r : regex) (w : str) : Prop :=
  match r with
  | Eps => w = []
  | Lit c => w = [c]
  | Cls k => ∃ c, w = [c] ∧ cset_has k c = true
  | Cat a b => ∃ u v, w = u ++ v ∧ lang a u ∧ lang b v
  | Alt a b => lang a w ∨ lang b w
  | Rep k lo hi =>
      Forall (λ c, cset_has k c = true) w ∧ (lo ≤ length w)%nat ∧ within hi (length w)
  end.

(** No word of [r] holds the character [d]. *)
Fixpoint avoids (d : N) (r : regex) : bool :=
  match r with
  | Eps => true
  | Lit c => negb (c =? d)
  | Cls k | Rep k _ _ => negb (cset_has k d)
  | Cat a b | Alt a b => avoids d a && avoids d b
  end.

Definition is_quote (c : N) : Prop := c = dquote ∨ c = squote.

(** The scan of [text] yields [g] as group 1 of a match that starts at
    index [i]. *)
Definition yields (text : str) (i : nat) (g : str) : Prop :=
  ∃ m, m ∈ finditer text ∧ m_start m = i ∧ m_group1 m = g.

(** No match of the scan that starts before index [n] reaches beyond it. *)
Definition no_match_across (text : str) (n : nat) : Prop :=
  Forall (λ m, (m_start m < n)%nat → (m_end m ≤ n)%nat) (finditer text).

(** Every character of [w] is in the class [k]. *)
Definition all_in (k : cset) (w : str) : Prop := Forall (λ c, cset_has k c = true) w.

(** The extension of group 3: one to four letters, or the word [action]. *)
Definition is_ext (e : str) : Prop :=
  ((1 ≤ length e ≤ 4)%nat ∧ all_in letter e) ∨ e = txt "action".

(** The end of a run of [P]-characters: the end of the string, or a character
    that is not [P]. *)
Definition stops (P : N → Prop) (x : str) : Prop :=
  match x with [] => True | c :: _ => ¬ P c end.

Global Instance is_quote_dec c : Decision (is_quote c).
Proof. unfold is_quote. apply _. Defined.

(** The denylist as the specification words it: space, angle brackets, comma,
    semicolon, pipe, wildcard, parentheses, percent, dollar, caret, backslash
    and the two brackets. *)
Definition spec_denylist : list N := txt " <>,;|*()%$^\[]".

(** A decidable closed proposition, settled by evaluation. *)
Ltac by_compute := apply (bool_decide_unpack _); vm_compute; exact I.

(** ** Exceptions and fallible calls *)

Inductive exn :=
| ConnectionError
| ReadTimeout
| TooManyRedirects
| HTTPError (status : N)
| FileNotFoundError
| ModuleNotFoundError
| AttributeError
| TypeError
| ValueError
| PermissionError
| OtherException (msg : str)
| KeyboardInterrupt
| SystemExit (code : N).

(** Is the exception an instance of [Exception]?  [KeyboardInterrupt] and
    [SystemExit] derive from [BaseException] only. *)
Definition is_Exception (e : exn) : bool :=
  match e with
  | KeyboardInterrupt | SystemExit _ => false
  | _ => true
  end.

Inductive result (A : Type) :=
| Ok (a : A)
| Raise (e : exn).
Arguments Ok {A} a.
Arguments Raise {A} e.

Global Instance result_ret : MRet result := λ A a, Ok a.
Global Instance result_bind : MBind result := λ A B f m,
  match m with
  | Ok a => f a
  | Raise e => Raise e
  end.

(** [try: body / except Exception as e: handler e] *)
Definition try_except {A} (body : result A) (handler : exn → result A) : result A :=
  match body with
  | Ok a => Ok a
  | Raise e => if is_Exception e then handler e else Raise e
  end.

(** ** The interfaces *)

Module RequestsInterface.
Record t := { get : str → bool → result (option bytes) }.
End RequestsInterface.

Module ParsedInterface.
Record t := {
  extract_scripts : bytes → result (list str);
  extract_urls_from_js : bytes → result (list str);
  clean : gset str → result (list str)
}.
End ParsedInterface.

(** ** The world the program runs in: what the libraries answer *)

Record Response := { status_code : N; content : bytes }.

(** [concurrent.futures.ThreadPoolExecutor] *)
Record ThreadPoolExecutor := { max_workers : nat }.

(** A module attribute.  [main] does three things with it: it reads its
    [__name__], it calls it, and it calls methods of what the call returned; a
    method the returned object does not have raises [AttributeError] when it
    is called.  So an attribute is given by its [__name__], if it has one,
    and by what a call of it gives: an exception, or an object seen through
    the two interfaces.  A class for one of the two roles, whose instances
    have the methods of that role and not those of the other, and an object
    that cannot be called (a module, a constant) are the common cases and
    have constructors of their own. *)
Inductive pyobj :=
| ParsedClass (name : str) (new : ParsedInterface.t)
| RequestsClass (name : str) (new : RequestsInterface.t)
| OtherObject (name : option str)
| Callable (name : option str) (call : result (ParsedInterface.t * RequestsInterface.t)).

Record module := { attrs : str → option pyobj }.

Record World := {
  (** [requests.Session.get(url, timeout=, verify=)] *)
  session_get : str → N → bool → result Response;
  (** [[tag['src'] for tag in BeautifulSoup(html, 'html.parser')
        .find_all('script', src=True)]] *)
  script_srcs : bytes → result (list str);
  (** [urllib.parse.urljoin]; it raises [ValueError] on a reference it
      cannot split, an unclosed bracket in the host for one *)
  urljoin : str → str → result str;
  (** [os.cpu_count() or 1] *)
  cpu_count : nat;
  (** [concurrent.futures.as_completed], on the results of the futures of a
      pool: the order in which they complete *)
  as_completed : ThreadPoolExecutor → list (result (option bytes))
                 → list (result (option bytes));
  (** [spec_from_file_location], [module_from_spec] and [exec_module] on a
      path *)
  exec_file : str → result module;
  (** [importlib.import_module] *)
  import_module : str → result module;
  (** [Path(file).read_text(encoding='utf-8').splitlines()] *)
  read_lines : str → result (list str);
  (** [open(path, 'a+', encoding='utf-8')], a [write] of each string in
      turn, and [close] *)
  append_lines : str → list str → result ()
}.

(** ** The Fetcher: [DefaultRequests] *)

Definition DEFAULT_TIMEOUT : N := 5.

(** [Response.raise_for_status]: an [HTTPError] for a 4xx or 5xx status. *)
Definition raise_for_status (resp : Response) : result () :=
  if (400 <=? status_code resp) && (status_code resp <? 600)
  then Raise (HTTPError (status_code resp))
  else Ok ().

(** [DefaultRequests.get]; silencing the warnings and the two console lines
    leave the returned value alone. *)
Definition DefaultRequests_get (w : World) (timeout : N) (url : str) (verify_ssl : bool)
    : result (option bytes) :=
  try_except
    (resp ← session_get w url timeout verify_ssl;
     _ ← raise_for_status resp;
     Ok (Some (content resp)))
    (λ e, Ok None).

Definition DefaultRequests_new (w : World) : RequestsInterface.t :=
  {| RequestsInterface.get := DefaultRequests_get w DEFAULT_TIMEOUT |}.

(** ** The PageParser and the built-in parser class *)

Definition DefaultParsed_extract_scripts (w : World) (html : bytes) : result (list str) :=
  try_except (script_srcs w html) (λ e, Ok []).

Definition DefaultParsed_new (w : World) : ParsedInterface.t :=
  {| ParsedInterface.extract_scripts := DefaultParsed_extract_scripts w;
     ParsedInterface.extract_urls_from_js := λ js, Ok (extract_urls_from_js js);
     ParsedInterface.clean := λ paths, Ok (clean paths) |}.

Definition DefaultParsed (w : World) : pyobj :=
  ParsedClass (txt "DefaultParsed") (DefaultParsed_new w).
Definition DefaultRequests (w : World) : pyobj :=
  RequestsClass (txt "DefaultRequests") (DefaultRequests_new w).

(** ** The ExtensionLoader: [load_custom] *)

(** Truthiness of an [Optional[str]]. *)
Definition given (o : option str) : bool :=
  match o with
  | Some (_ :: _) => true
  | _ => false
  end.

Definition endswith (s suffix : str) : bool := bool_decide (suffix `suffix_of` s).

(** [getattr(module, name, default)] *)
Definition getattr (m : module) (name : option str) (dflt : pyobj) : pyobj :=
  match name with
  | Some n => default dflt (attrs m n)
  | None => dflt
  end.

(** [obj.__name__] *)
Definition dunder_name (o : pyobj) : result str :=
  match o with
  | ParsedClass n _ | RequestsClass n _ => Ok n
  | OtherObject (Some n) | Callable (Some n) _ => Ok n
  | OtherObject None | Callable None _ => Raise AttributeError
  end.

Definition load_custom (w : World) (path : option str)
    (cls_names : option str * option str) : result (pyobj * pyobj) :=
  let '(parsed_name, req_name) := cls_names in
  match path with
  | None | Some [] => Ok (DefaultParsed w, DefaultRequests w)
  | Some path =>
      try_except
        (module ← (if endswith path (txt ".py") then exec_file w path
                   else import_module w path);
         parsed ← (if given (fst cls_names)
                   then let parsed := getattr module parsed_name (DefaultParsed w) in
                        _ ← dunder_name parsed; Ok parsed
                   else Ok (DefaultParsed w));
         req ← (if given (snd cls_names)
                then let req := getattr module req_name (DefaultRequests w) in
                     _ ← dunder_name req; Ok req
                else Ok (DefaultRequests w));
         Ok (parsed, req))
        (λ e, Ok (DefaultParsed w, DefaultRequests w))
  end.

(** ** The Orchestrator: [process_target] *)

(** [ThreadPoolExecutor(max_workers)]; without the argument the bound is
    [min(32, cpu_count + 4)]. *)
Definition ThreadPoolExecutor_init (w : World) (workers : option nat) : ThreadPoolExecutor :=
  {| max_workers := default (32 `min` (cpu_count w + 4))%nat workers |}.

(** The pool of [process_target]: [ThreadPoolExecutor()]. *)
Definition target_pool (w : World) : ThreadPoolExecutor := ThreadPoolExecutor_init w None.

(** The loop over the completed futures: [f.result()] hands on what the
    call returned or raised. *)
Fixpoint collect (parsed_inst : ParsedInterface.t)
    (completed : list (result (option bytes))) (found : gset str) : result (gset str) :=
  match completed with
  | [] => Ok found
  | f :: completed' =>
      js ← f;
      match js with
      | Some ((_ :: _) as js) =>
          urls ← ParsedInterface.extract_urls_from_js parsed_inst js;
          collect parsed_inst completed' (found ∪ list_to_set urls)
      | _ => collect parsed_inst completed' found
      end
  end.

Definition process_target (w : World) (url : str)
    (parsed_inst : ParsedInterface.t) (req_inst : RequestsInterface.t)
    (verify_ssl : bool) : result (gset str) :=
  let found : gset str := ∅ in
  html ← RequestsInterface.get req_inst url verify_ssl;
  match html with
  | None | Some [] => Ok found
  | Some html =>
      scripts ← ParsedInterface.extract_scripts parsed_inst html;
      full_js_urls ← mapM (urljoin w url) scripts;
      let pool := target_pool w in
      let futures := (λ js_url, RequestsInterface.get req_inst js_url verify_ssl)
                       <$> full_js_urls in
      collect parsed_inst (as_completed w pool futures) found
  end.

(** ** The driver: [main] *)

Record Args := {
  url : option str;
  file : option str;
  custom_module : option str;
  parsed_name : option str;
  request_name : option str;
  workers : nat;
  ssl : bool;
  output : option str
}.

(** [parser.error]: the process exits with status 2. *)
Definition parser_error {A} : result A := Raise (SystemExit 2).

(** An object without the methods of a role: calling one raises
    [AttributeError]. *)
Definition no_parsed : ParsedInterface.t :=
  {| ParsedInterface.extract_scripts := λ _, Raise AttributeError;
     ParsedInterface.extract_urls_from_js := λ _, Raise AttributeError;
     ParsedInterface.clean := λ _, Raise AttributeError |}.

Definition no_requests : RequestsInterface.t :=
  {| RequestsInterface.get := λ _ _, Raise AttributeError |}.

(** [cls()]: any callable is called, whatever it is; an object that cannot
    be called raises [TypeError]. *)
Definition instantiate (o : pyobj) : result (ParsedInterface.t * RequestsInterface.t) :=
  match o with
  | ParsedClass _ new => Ok (new, no_requests)
  | RequestsClass _ new => Ok (no_parsed, new)
  | OtherObject _ => Raise TypeError
  | Callable _ call => call
  end.

(** [parsed_cls()] and [req_cls()] *)
Definition new_parsed (o : pyobj) : result ParsedInterface.t :=
  inst ← instantiate o; Ok (fst inst).

Definition new_requests (o : pyobj) : result RequestsInterface.t :=
  inst ← instantiate o; Ok (snd inst).

(** The loop over the targets: [all_urls |= result]. *)
Fixpoint process_all (w : World) (urls : list str)
    (parsed_inst : ParsedInterface.t) (req_inst : RequestsInterface.t)
    (verify_ssl : bool) (all_urls : gset str) : result (gset str) :=
  match urls with
  | [] => Ok all_urls
  | u :: urls' =>
      res ← process_target w u parsed_inst req_inst verify_ssl;
      process_all w urls' parsed_inst req_inst verify_ssl (all_urls ∪ res)
  end.

(** [[l.strip() for l in Path(file).read_text(...).splitlines() if l.strip()]] *)
Definition file_targets (w : World) (file : option str) : result (list str) :=
  match file with
  | Some ((_ :: _) as f) =>
      read_lines w f ≫= λ ls : list str,
        Ok (strip <$> filter (λ l, truthy (strip l)) ls)
  | _ => Ok []
  end.

Definition url_target (url : option str) : list str :=
  match url with
  | Some ((_ :: _) as u) => [u]
  | _ => []
  end.

(** The end of [main]: with [-o], each string of the list and a newline are
    appended to the file.  Nothing handles what [open] or [write] raise. *)
Definition save (w : World) (output : option str) (cleaned : list str) : result () :=
  match output with
  | Some ((_ :: _) as o) => append_lines w o ((λ url, url ++ [10]) <$> cleaned)
  | _ => Ok ()
  end.

(** [main], from the parsed arguments to the list it prints: [Ok cleaned]
    when the run comes to its end, having printed [cleaned] (and appended it
    to the output file when one is named), [Raise e] when it ends with the
    exception [e]. *)
Definition main (w : World) (args : Args) : result (list str) :=
  if negb (given (url args)) && negb (given (file args)) then parser_error
  else if given (custom_module args)
          && negb (given (parsed_name args) || given (request_name args))
  then parser_error
  else
    from_file ← file_targets w (file args);
    let urls := from_file ++ url_target (url args) in
    match urls with
    | [] => parser_error
    | _ =>
        classes ← load_custom w (custom_module args)
                    (parsed_name args, request_name args);
        parsed_inst ← new_parsed (fst classes);
        req_inst ← new_requests (snd classes);
        all_urls ← process_all w urls parsed_inst req_inst (ssl args) ∅;
        cleaned ← ParsedInterface.clean parsed_inst all_urls;
        _ ← save w (output args) cleaned;
        Ok cleaned
    end.

(** The arguments with another worker count ([-w]) or another substitution
    source ([-cm]). *)
Definition with_workers (n : nat) (a : Args) : Args :=
  {| url := url a; file := file a; custom_module := custom_module a;
     parsed_name := parsed_name a; request_name := request_name a;
     workers := n; ssl := ssl a; output := output a |}.

Definition with_custom_module (cm : option str) (a : Args) : Args :=
  {| url := url a; file := file a; custom_module := cm;
     parsed_name := parsed_name a; request_name := request_name a;
     workers := workers a; ssl := ssl a; output := output a |}.

(** The arguments with another output file ([-o]), or none. *)
Definition with_output (o : option str) (a : Args) : Args :=
  {| url := url a; file := file a; custom_module := custom_module a;
     parsed_name := parsed_name a; request_name := request_name a;
     workers := workers a; ssl := ssl a; output := o |}.

(** The source named by [path] does not exist: executing the file, or
    importing the module, raises. *)
Definition nonexistent (w : World) (path : str) : Prop :=
  if endswith path (txt ".py") then exec_file w path = Raise FileNotFoundError
  else import_module w path = Raise ModuleNotFoundError.

(** ** A small world, for examples *)

Definition demo_page1 : bytes := raw "<script src=a.js></script><script src=b.js></script>".
Definition demo_page2 : bytes := raw "<script src=b.js></script><script src=c.js></script>".
Definition demo_page3 : bytes := raw "<script src=a.js></script><script src=http://[x></script>".

Definition demo_session_get (url : str) (timeout : N) (verify : bool) : result Response :=
  if bool_decide (url = txt "http://t/")
  then Ok {| status_code := 200; content := demo_page1 |}
  else if bool_decide (url = txt "http://u/")
  then Ok {| status_code := 200; content := demo_page2 |}
  else if bool_decide (url = txt "http://v/")
  then Ok {| status_code := 200; content := [] |}
  else if bool_decide (url = txt "http://w/")
  then Ok {| status_code := 200; content := demo_page3 |}
  else if bool_decide (url = txt "http://t/choices")
  then Ok {| status_code := 300; content := raw "<a href=/a>a</a><a href=/b>b</a>" |}
  else if bool_decide (url = txt "http://t/a.js")
  then Ok {| status_code := 200; content := raw "x='/api/v1/users';y='a.json'" |}
  else if bool_decide (url = txt "http://t/b.js" ∨ url = txt "http://u/b.js")
  then Ok {| status_code := 404; content := raw "not found" |}
  else if bool_decide (url = txt "http://u/c.js")
  then Raise ReadTimeout
  else Raise ConnectionError.

Definition demo_script_srcs (html : bytes) : result (list str) :=
  if bool_decide (html = demo_page1) then Ok [txt "a.js"; txt "b.js"]
  else if bool_decide (html = demo_page2) then Ok [txt "b.js"; txt "c.js"]
  else if bool_decide (html = demo_page3) then Ok [txt "a.js"; txt "http://[x"]
  else Ok [].

(** [urljoin] on the references of the demo pages: relative to the page,
    and [ValueError] for the host with an unclosed bracket. *)
Definition demo_urljoin (base ref : str) : result str :=
  if bool_decide (ref = txt "http://[x") then Raise ValueError else Ok (base ++ ref).

(** The file [out.txt] can be written, no other. *)
Definition demo_append_lines (path : str) (lines : list str) : result () :=
  if bool_decide (path = txt "out.txt") then Ok () else Raise PermissionError.

Definition demo : World :=
  {| session_get := demo_session_get;
     script_srcs := demo_script_srcs;
     urljoin := demo_urljoin;
     cpu_count := 4;
     as_completed := λ _ fs, reverse fs;
     exec_file := λ _, Raise FileNotFoundError;
     import_module := λ _, Raise ModuleNotFoundError;
     read_lines := λ _, Raise FileNotFoundError;
     append_lines := demo_append_lines |}.

Definition demo_args : Args :=
  {| url := Some (txt "http://t/"); file := None;
     custom_module := Some (txt "plugin.py");
     parsed_name := Some (txt "MyParsed"); request_name := None;
     workers := 10; ssl := false; output := None |}.

(** The source [path] loads, as the module [m]. *)
Definition loaded (w : World) (path : str) (m : module) : Prop :=
  path ≠ []
  ∧ (if endswith path (txt ".py") then exec_file w path else import_module w path) = Ok m.

(** The HTTP session and the markup parser raise nothing but instances of
    [Exception]. *)
Definition raises_only_Exceptions (w : World) : Prop :=
  (∀ url timeout verify e, session_get w url timeout verify = Raise e → is_Exception e = true)
  ∧ (∀ html e, script_srcs w html = Raise e → is_Exception e = true).

(** A second small world: the file [plugin.py] exists and defines a fetcher
    class [MyRequests], whose [get] always raises, a parser class [MyParsed],
    which finds nothing, an attribute [helper] that has no [__name__], and
    the module [os], which has a [__name__] and cannot be called. *)
Definition demo_fetcher : RequestsInterface.t :=
  {| RequestsInterface.get := λ _ _, Raise ConnectionError |}.

Definition demo_parser : ParsedInterface.t :=
  {| ParsedInterface.extract_scripts := λ _, Ok [txt "a.js"];
     ParsedInterface.extract_urls_from_js := λ _, Ok [];
     ParsedInterface.clean := λ paths, Ok (elements paths) |}.

Definition demo_module : module :=
  {| attrs := λ n,
       if bool_decide (n = txt "MyRequests")
       then Some (RequestsClass (txt "MyRequests") demo_fetcher)
       else if bool_decide (n = txt "MyParsed")
       then Some (ParsedClass (txt "MyParsed") demo_parser)
       else if bool_decide (n = txt "helper") then Some (OtherObject None)
       else if bool_decide (n = txt "os") then Some (OtherObject (Some (txt "os")))
       else None |}.

Definition demo_plugins : World :=
  {| session_get := demo_session_get;
     script_srcs := demo_script_srcs;
     urljoin := demo_urljoin;
     cpu_count := 4;
     as_completed := λ _ fs, fs;
     exec_file := λ p, if bool_decide (p = txt "plugin.py") then Ok demo_module
                       else Raise FileNotFoundError;
     import_module := λ _, Raise ModuleNotFoundError;
     read_lines := λ f, if bool_decide (f = txt "targets.txt")
                        then Ok [txt " http://t/ "; txt "  "; txt "http://v/"]
                        else if bool_decide (f = txt "blank.txt")
                        then Ok [txt "  "; []; [9]]
                        else Raise FileNotFoundError;
     append_lines := demo_append_lines |}.

(** A fetcher that gets the first demo page and raises for everything else. *)
Definition demo_flaky : RequestsInterface.t :=
  {| RequestsInterface.get := λ u _,
       if bool_decide (u = txt "http://t/") then Ok (Some demo_page1)
       else Raise ConnectionError |}.

(** Arguments with a URL alone, with a file alone, and with neither. *)
Definition demo_url_args : Args :=
  {| url := Some (txt "http://t/"); file := None; custom_module := None;
     parsed_name := None; request_name := None;
     workers := 10; ssl := false; output := None |}.

Definition demo_file_args (f : str) : Args :=
  {| url := None; file := Some f; custom_module := None;
     parsed_name := None; request_name := None;
     workers := 10; ssl := false; output := None |}.

Definition demo_no_args : Args :=
  {| url := None; file := None; custom_module := None;
     parsed_name := None; request_name := None;
     workers := 10; ssl := false; output := None |}.

(** The world [w] with the futures completing in the order [f]. *)
Definition with_as_completed
    (f : ThreadPoolExecutor → list (result (option bytes)) → list (result (option bytes)))
    (w : World) : World :=
  {| session_get := session_get w; script_srcs := script_srcs w;
     urljoin := urljoin w; cpu_count := cpu_count w;
     as_completed := f;
     exec_file := exec_file w; import_module := import_module w;
     read_lines := read_lines w; append_lines := append_lines w |}.

(** * Properties *)

(** ** Lemmas on text *)

Lemma lstrip_head s c s' : lstrip s = c :: s' → isspace c = false.
Proof.
  induction s as [|x s IH]; simpl; [done|].
  destruct (isspace x) eqn:E; [done|]. by intros [= -> _].
Qed.

Lemma lstrip_fix s :
  match s with c :: _ => isspace c = false | [] => True end → lstrip s = s.
Proof. destruct s as [|c s]; simpl; [done|]. by intros ->. Qed.

Lemma rstrip_head c s :
  isspace c = false → ∃ r, rstrip (c :: s) = c :: r.
Proof.
  intros Hc. simpl. destruct (rstrip s); rewrite ?Hc; eauto.
Qed.

Lemma rstrip_rstrip s : rstrip (rstrip s) = rstrip s.
Proof.
  induction s as [|c s IH]; simpl; [done|].
  destruct (rstrip s) as [|y r] eqn:E.
  - destruct (isspace c) eqn:Hc; simpl; [done|]. by rewrite Hc.
  - change (rstrip (c :: y :: r)) with
      (match rstrip (y :: r) with
       | [] => if isspace c then [] else [c]
       | r' => c :: r'
       end).
    by rewrite IH.
Qed.

Lemma rstrip_last s c : last (rstrip s) = Some c → isspace c = false.
Proof.
  revert c. induction s as [|x s IH]; simpl; intros c; [done|].
  destruct (rstrip s) as [|y r] eqn:E.
  - destruct (isspace x) eqn:Hx; simpl; [done|]. by intros [= <-].
  - intros H. apply IH. by rewrite <- H.
Qed.

Lemma strip_head s c s' : strip s = c :: s' → isspace c = false.
Proof.
  unfold strip. destruct (lstrip s) as [|x t] eqn:E; [done|].
  pose proof (lstrip_head _ _ _ E) as Hx.
  destruct (rstrip_head x t Hx) as [r ->]. by intros [= <- _].
Qed.

Lemma strip_last s c : last (strip s) = Some c → isspace c = false.
Proof. apply rstrip_last. Qed.

Lemma strip_strip s : strip (strip s) = strip s.
Proof.
  unfold strip at 1. rewrite lstrip_fix.
  - unfold strip. apply rstrip_rstrip.
  - destruct (strip s) eqn:E; [done|]. by eapply strip_head.
Qed.

(** *** The order is a total order *)

Lemma str_leb_refl a : str_leb a a = true.
Proof.
  induction a as [|x a IH]; simpl; [done|].
  by rewrite N.ltb_irrefl, N.eqb_refl.
Qed.

Lemma str_le_refl : Reflexive str_le.
Proof. intros a. apply str_leb_refl. Qed.
#[global] Existing Instance str_le_refl.

Lemma str_le_total : Total str_le.
Proof.
  intros a. unfold str_le. induction a as [|x a IH]; intros [|y b]; simpl; auto.
  destruct (N.ltb_spec x y), (N.ltb_spec y x); auto; try lia.
  assert (x = y) as -> by lia. rewrite N.eqb_refl. apply IH.
Qed.
#[global] Existing Instance str_le_total.

Lemma str_le_trans : Transitive str_le.
Proof.
  unfold str_le. intros a. induction a as [|x a IH]; intros [|y b] [|z c]; simpl; auto;
    try done.
  destruct (N.ltb_spec x y), (N.ltb_spec y z), (N.ltb_spec x z); try done; try lia.
  - destruct (N.eqb_spec y z); [lia | done].
  - destruct (N.eqb_spec x y); [lia | done].
  - destruct (N.eqb_spec x y); [|done]. destruct (N.eqb_spec y z); [|done].
    subst. rewrite N.eqb_refl. apply IH.
Qed.
#[global] Existing Instance str_le_trans.

Lemma str_le_antisym : AntiSymm (=) str_le.
Proof.
  unfold str_le. intros a. induction a as [|x a IH]; intros [|y b]; simpl; auto;
    try done.
  destruct (N.ltb_spec x y), (N.ltb_spec y x); try lia.
  - destruct (N.eqb_spec y x); [lia | done].
  - destruct (N.eqb_spec x y); [lia | done].
  - assert (x = y) as -> by lia. rewrite N.eqb_refl. intros ??. f_equal. by apply IH.
Qed.
#[global] Existing Instance str_le_antisym.

(** A sorted list without repetition is strictly increasing. *)
Lemma Sorted_strict (l : list str) :
  Sorted str_le l → NoDup l → Sorted str_lt l.
Proof.
  intros Hs Hn. apply Sorted_StronglySorted in Hs; [|apply _].
  induction Hs as [|x l Hl IH Hx]; [constructor|].
  apply NoDup_cons in Hn as [Hnx Hn]. constructor; [by apply IH|].
  destruct l as [|y l]; constructor. split.
  - by apply Forall_cons in Hx as [? _].
  - intros ->. apply Hnx. by left.
Qed.

(** *** [clean] *)

Lemma elem_of_stripped_set paths x :
  x ∈ stripped_set paths ↔ ∃ p, p ∈ paths ∧ strip p = x ∧ x ≠ [].
Proof.
  unfold stripped_set. rewrite elem_of_map. split.
  - intros (p & -> & Hp). apply elem_of_filter in Hp as [Ht Hp]. eauto.
  - intros (p & Hp & <- & Hne). exists p. split; [done|].
    apply elem_of_filter. by split.
Qed.

Lemma clean_Permutation paths : clean paths ≡ₚ elements (stripped_set paths).
Proof. apply merge_sort_Permutation. Qed.

Lemma elem_of_clean paths x :
  x ∈ clean paths ↔ ∃ p, p ∈ paths ∧ strip p = x ∧ x ≠ [].
Proof.
  rewrite (clean_Permutation paths), elem_of_elements.
  apply elem_of_stripped_set.
Qed.

Lemma clean_NoDup paths : NoDup (clean paths).
Proof. rewrite (clean_Permutation paths). apply NoDup_elements. Qed.

Lemma clean_Sorted paths : Sorted str_le (clean paths).
Proof. apply (Sorted_merge_sort str_le). Qed.

Lemma stripped_set_fix (X : gset str) :
  (∀ x, x ∈ X → strip x = x ∧ x ≠ []) → stripped_set X = X.
Proof.
  intros H. apply set_eq. intros x. rewrite elem_of_stripped_set. split.
  - intros (p & Hp & <- & _). by rewrite (proj1 (H p Hp)).
  - intros Hx. exists x. destruct (H x Hx). eauto.
Qed.

(** C1. For every input set, the output of [clean] has only members that are
    trimmed of surrounding whitespace (stripping changes nothing; neither the
    first nor the last character is a space), never the empty string, no
    member twice, ascending code point order; it holds exactly the non-empty
    trimmed forms of the input's members, and two ways of building the same
    set (any insertion order, any repetition) give the same output. *)
Theorem clean_normal_form :
  ∀ paths : gset str,
    Forall (λ p, strip p = p
                 ∧ (∀ c, head p = Some c → isspace c = false)
                 ∧ (∀ c, last p = Some c → isspace c = false)) (clean paths)
    ∧ ([] ∉ clean paths)
    ∧ NoDup (clean paths)
    ∧ Sorted str_le (clean paths) ∧ Sorted str_lt (clean paths)
    ∧ (∀ x, x ∈ clean paths ↔ ∃ p, p ∈ paths ∧ strip p = x ∧ x ≠ [])
    ∧ (∀ l1 l2 : list str,
         (∀ x, x ∈ l1 ↔ x ∈ l2) →
         clean (list_to_set l1) = clean (list_to_set l2)).
Proof.
  intros paths. split_and!.
  - apply Forall_forall. intros x Hx.
    apply elem_of_clean in Hx as (p & _ & <- & _). split_and!.
    + apply strip_strip.
    + intros c Hc. destruct (strip p) as [|y t] eqn:E; [done|].
      injection Hc as ->. by eapply strip_head.
    + apply strip_last.
  - intros H. by apply elem_of_clean in H as (? & _ & _ & ?).
  - apply clean_NoDup.
  - apply clean_Sorted.
  - apply Sorted_strict; [apply clean_Sorted | apply clean_NoDup].
  - apply elem_of_clean.
  - intros l1 l2 H. f_equal. apply set_eq. intros x.
    by rewrite !elem_of_list_to_set.
Qed.

(** C9. [clean] is idempotent: cleaning the set of members of [clean s] gives
    [clean s] again. *)
Theorem clean_idempotent :
  ∀ s : gset str, clean (list_to_set (clean s)) = clean s.
Proof.
  intros s. unfold clean at 1 3. f_equal. f_equal.
  rewrite stripped_set_fix.
  - apply set_eq. intros x.
    by rewrite elem_of_list_to_set, (clean_Permutation s), elem_of_elements.
  - intros x Hx. apply elem_of_list_to_set, elem_of_clean in Hx.
    destruct Hx as (p & _ & <- & Hne). split; [apply strip_strip | done].
Qed.


(** ** The matcher against the denotation *)

Section MatcherFacts.
Context {A : Type}.
Implicit Types (κ : str → option A) (s w : str).

Lemma rep_sound k lo hi s κ v :
  rep k lo hi s κ = Some v →
  ∃ w s', s = w ++ s' ∧ lang (Rep k lo hi) w ∧ κ s' = Some v.
Proof.
  revert lo hi. induction s as [|c s IH]; intros lo hi; simpl.
  - destruct lo; [|done]. intros H. exists [], []. repeat split; auto.
    destruct hi; simpl; lia.
  - assert (Hstop : match lo with O => κ (c :: s) | S _ => None end = Some v →
                    ∃ w s', c :: s = w ++ s' ∧ lang (Rep k lo hi) w ∧ κ s' = Some v).
    { destruct lo; [|done]. intros H. exists [], (c :: s). repeat split; auto.
      destruct hi; simpl; lia. }
    destruct (cset_has k c && below hi) eqn:E; [|done].
    apply andb_true_iff in E as [Hc Hb].
    destruct (rep k (Nat.pred lo) (dec hi) s κ) as [v'|] eqn:R; [|done].
    intros [= <-]. destruct (IH _ _ R) as (w & s' & -> & (Hw & Hlo & Hhi) & Hκ).
    exists (c :: w), s'. repeat split; auto; simpl; [lia|].
    destruct hi as [[|h]|]; simpl in *; try done; lia.
Qed.

Lemma rep_complete k lo hi w s' κ :
  lang (Rep k lo hi) w → is_Some (κ s') → is_Some (rep k lo hi (w ++ s') κ).
Proof.
  intros (Hw & Hlo & Hhi) Hκ. revert lo hi Hlo Hhi.
  induction Hw as [|c w Hc Hw IH]; intros lo hi Hlo Hhi; simpl in *.
  - assert (lo = 0%nat) as -> by lia.
    destruct s' as [|c s]; simpl; [done|].
    destruct (cset_has k c && below hi); [|done].
    by destruct (rep k _ _ s κ).
  - rewrite Hc. assert (below hi = true) as ->.
    { destruct hi as [[|h]|]; simpl in *; [lia|done|done]. }
    simpl. destruct (IH (Nat.pred lo) (dec hi)) as [v ->]; [lia| |done].
    destruct hi as [h|]; simpl in *; [lia|done].
Qed.

Lemma exec_sound r s κ v :
  exec r s κ = Some v → ∃ w s', s = w ++ s' ∧ lang r w ∧ κ s' = Some v.
Proof.
  revert s κ. induction r as [|c|k|a IHa b IHb|a IHa b IHb|k lo hi];
    intros s κ; simpl.
  - intros H. by exists [], s.
  - destruct s as [|x s]; [done|]. destruct (N.eqb_spec x c) as [->|]; [|done].
    intros H. by exists [c], s.
  - destruct s as [|x s]; [done|]. destruct (cset_has k x) eqn:E; [|done].
    intros H. exists [x], s. eauto.
  - intros H. apply IHa in H as (u & s1 & -> & Hu & H).
    apply IHb in H as (v' & s2 & -> & Hv & H).
    exists (u ++ v'), s2. rewrite <- (assoc_L (++)). eauto 10.
  - destruct (exec a s κ) as [v'|] eqn:E.
    + intros [= <-]. apply IHa in E as (w & s' & ? & ? & ?). eauto 10.
    + intros H. apply IHb in H as (w & s' & ? & ? & ?). eauto 10.
  - apply rep_sound.
Qed.

Lemma exec_complete r w s' κ :
  lang r w → is_Some (κ s') → is_Some (exec r (w ++ s') κ).
Proof.
  revert w s' κ. induction r as [|c|k|a IHa b IHb|a IHa b IHb|k lo hi];
    intros w s' κ; simpl.
  - by intros ->.
  - intros ->. simpl. by rewrite N.eqb_refl.
  - intros (c & -> & Hc). simpl. by rewrite Hc.
  - intros (u & v & -> & Hu & Hv) Hκ. rewrite <- (assoc_L (++)).
    apply IHa; [done|]. by apply IHb.
  - intros [H|H] Hκ.
    + by destruct (IHa _ _ _ H Hκ) as [v ->].
    + destruct (exec a (w ++ s') κ); [done|]. by apply IHb.
  - apply rep_complete.
Qed.
End MatcherFacts.

Lemma matches_lang r w : matches r w = true ↔ lang r w.
Proof.
  unfold matches. rewrite bool_decide_eq_true. split.
  - intros [v H]. apply exec_sound in H as (u & s' & -> & Hu & H).
    destruct s'; [|done]. by rewrite (right_id_L [] (++)).
  - intros H. rewrite <- (right_id_L [] (++) w). by apply exec_complete.
Qed.

Lemma lang_avoids d r w : avoids d r = true → lang r w → d ∉ w.
Proof.
  revert w. induction r as [|c|k|a IHa b IHb|a IHa b IHb|k lo hi]; intros w; simpl.
  - intros _ ->. apply not_elem_of_nil.
  - intros H ->. apply negb_true_iff, N.eqb_neq in H. by intros ->%list_elem_of_singleton.
  - intros H (c & -> & Hc). intros ->%list_elem_of_singleton.
    apply negb_true_iff in H. congruence.
  - intros [Ha Hb]%andb_true_iff (u & v & -> & Hu & Hv).
    rewrite elem_of_app. intros [?|?]; [by eapply IHa | by eapply IHb].
  - intros [Ha Hb]%andb_true_iff [H|H]; [by apply IHa | by apply IHb].
  - intros H (Hw & _). apply negb_true_iff in H. intros Hd.
    rewrite Forall_forall in Hw. apply Hw in Hd. congruence.
Qed.

(** ** Matching a delimited literal *)

(** A run of [P]-characters followed by a non-[P] character (or by the end)
    can be read off a string in one way only. *)
Lemma span_unique (P : N → Prop) u u' x x' :
  Forall P u → Forall P u' → stops P x → stops P x' →
  u ++ x = u' ++ x' → u = u' ∧ x = x'.
Proof.
  intros Hu. revert u'. induction Hu as [|c u Hc Hu IH]; intros u' Hu' Hx Hx' E.
  - destruct Hu' as [|c' u' Hc' Hu']; [done|].
    simpl in E. subst x. by destruct Hx.
  - destruct Hu' as [|c' u' Hc' Hu'].
    + simpl in E. subst x'. by destruct Hx'.
    + simpl in E. injection E as -> E.
      destruct (IH _ Hu' Hx Hx' E) as [-> ->]. done.
Qed.

Lemma exec_quote_cons {A} q s (κ : str → option A) :
  is_quote q → exec quote (q :: s) κ = κ s.
Proof. intros [->| ->]; simpl; [by destruct (κ s) | done]. Qed.

Lemma exec_quote_inv {A} s (κ : str → option A) v :
  exec quote s κ = Some v → ∃ q s', s = q :: s' ∧ is_quote q ∧ κ s' = Some v.
Proof.
  intros H. apply exec_sound in H as (w & s' & -> & [-> | ->] & H);
    eexists _, s'; (split; [done|]); split; auto; [by left | by right].
Qed.

Lemma group1_quote_free w : lang group1 w → Forall (λ c, ¬ is_quote c) w.
Proof.
  intros H. apply Forall_forall. intros c Hc [-> | ->];
    revert Hc; by apply (lang_avoids _ group1).
Qed.

Lemma take_app_rest (w s : str) : take (length (w ++ s) - length s) (w ++ s) = w.
Proof.
  rewrite length_app. replace (length w + length s - length s)%nat with (length w) by lia.
  by rewrite take_app_length.
Qed.

Lemma match_at_inv s g rest :
  match_at s = Some (g, rest) →
  ∃ q q', s = q :: g ++ q' :: rest ∧ is_quote q ∧ is_quote q' ∧ lang group1 g.
Proof.
  unfold match_at. intros H.
  apply exec_quote_inv in H as (q & s1 & -> & Hq & H).
  apply exec_sound in H as (w & s2 & -> & Hw & H).
  apply exec_quote_inv in H as (q' & s3 & -> & Hq' & H).
  rewrite take_app_rest in H. injection H as <- <-. eauto 10.
Qed.

(** At the opening delimiter of a literal without quote characters, the rule
    matches the literal itself or nothing. *)
Lemma match_at_quoted q q' lit post :
  is_quote q → is_quote q' → Forall (λ c, ¬ is_quote c) lit →
  match_at (q :: lit ++ q' :: post)
  = if matches group1 lit then Some (lit, post) else None.
Proof.
  intros Hq Hq' Hlit.
  assert (Hinv : ∀ g rest, match_at (q :: lit ++ q' :: post) = Some (g, rest) →
                           g = lit ∧ rest = post ∧ lang group1 lit).
  { intros g rest H. apply match_at_inv in H as (q1 & q2 & E & _ & Hq2 & Hg).
    injection E as _ E.
    apply (span_unique (λ c, ¬ is_quote c)) in E as [<- [= _ <-]]; auto.
    - by apply group1_quote_free.
    - simpl. tauto.
    - simpl. tauto. }
  destruct (match_at (q :: lit ++ q' :: post)) as [[g rest]|] eqn:E.
  - destruct (Hinv _ _ eq_refl) as (-> & -> & Hl).
    apply matches_lang in Hl. by rewrite Hl.
  - destruct (matches group1 lit) eqn:M; [|done].
    apply matches_lang in M. exfalso. revert E. unfold match_at.
    rewrite exec_quote_cons by done. intros E.
    eapply (is_Some_None (A:=str * str)). rewrite <- E.
    apply exec_complete; [done|]. rewrite exec_quote_cons by done. eauto.
Qed.

(** *** [finditer] *)

Lemma finditer_from_sound skip pos s m :
  m ∈ finditer_from skip pos s →
  ∃ i rest, m_start m = (pos + i)%nat ∧ (skip ≤ i)%nat
            ∧ match_at (drop i s) = Some (m_group1 m, rest)
            ∧ m_end m = (m_start m + (length (drop i s) - length rest))%nat.
Proof.
  revert skip pos. induction s as [|c s IH]; intros skip pos; simpl.
  - by intros ?%elem_of_nil.
  - assert (Hstep : ∀ k, (skip ≤ S k)%nat → m ∈ finditer_from k (S pos) s →
      ∃ i rest, m_start m = (pos + i)%nat ∧ (skip ≤ i)%nat
            ∧ match_at (drop i (c :: s)) = Some (m_group1 m, rest)
            ∧ m_end m = (m_start m + (length (drop i (c :: s)) - length rest))%nat).
    { intros k Hk H. apply IH in H as (i & rest & H1 & H2 & H3 & H4).
      exists (S i), rest. simpl. repeat split; auto; lia. }
    destruct skip as [|n]; [|apply Hstep; lia].
    destruct (match_at (c :: s)) as [[g rest]|] eqn:E; [|apply Hstep; lia].
    intros [->|H]%elem_of_cons; [|by eapply Hstep; [lia|]].
    exists 0%nat, rest. simpl. repeat split; auto; lia.
Qed.

Lemma finditer_from_reach pre s skip pos g rest :
  (skip ≤ length pre)%nat →
  Forall (λ m, (m_start m < pos + length pre)%nat → (m_end m ≤ pos + length pre)%nat)
         (finditer_from skip pos (pre ++ s)) →
  match_at s = Some (g, rest) →
  MkMatch (pos + length pre) (pos + length pre + (length s - length rest)) g
    ∈ finditer_from skip pos (pre ++ s).
Proof.
  revert skip pos. induction pre as [|c pre IH]; intros skip pos Hskip Hall Hm.
  - simpl in *. assert (skip = 0%nat) as -> by lia.
    apply match_at_inv in Hm as Hs. destruct Hs as (q & q' & Hs & _).
    destruct s as [|x s]; [done|]. simpl. rewrite Hm.
    rewrite !Nat.add_0_r. by left.
  - simpl in *.
    replace (pos + S (length pre))%nat with (S pos + length pre)%nat in * by lia.
    destruct skip as [|n]; [|apply IH; [lia|done|done]].
    destruct (match_at (c :: pre ++ s)) as [[g' rest']|] eqn:E;
      [|apply IH; [lia|done|done]].
    apply Forall_cons in Hall as [Hhd Hall]. simpl in Hhd.
    right. apply IH; [lia|done|done].
Qed.

(** Where no earlier match runs over index [length pre], the scan yields at
    that index exactly what the rule matches there. *)
Lemma yields_iff_match_at pre s g :
  no_match_across (pre ++ s) (length pre) →
  yields (pre ++ s) (length pre) g ↔ ∃ rest, match_at s = Some (g, rest).
Proof.
  intros Hno. split.
  - intros (m & Hm & Hst & <-).
    apply finditer_from_sound in Hm as (i & rest & Hi & _ & Hm & _).
    simpl in Hi. rewrite Hst in Hi. subst i.
    rewrite drop_app_length in Hm. eauto.
  - intros [rest Hm]. eexists. split.
    + apply (finditer_from_reach pre s 0 0 g rest); [lia|done|done].
    + done.
Qed.

(** The same for a delimited literal. *)
Lemma yields_quoted pre q lit q' post :
  is_quote q → is_quote q' → Forall (λ c, ¬ is_quote c) lit →
  no_match_across (pre ++ q :: lit ++ q' :: post) (length pre) →
  yields (pre ++ q :: lit ++ q' :: post) (length pre) lit ↔ lang group1 lit.
Proof.
  intros Hq Hq' Hlit Hno. rewrite yields_iff_match_at by done.
  rewrite match_at_quoted by done. rewrite <- matches_lang.
  destruct (matches group1 lit); split; eauto; try done. by intros [? ?].
Qed.

Lemma yields_elem_of text i g : yields text i g → g ∈ scan text.
Proof. intros (m & Hm & _ & <-). unfold scan. by apply list_elem_of_fmap_2. Qed.

(** ** The three shapes *)

Lemma neg_class_has l c : cset_has (CSet true (Chr <$> l)) c = true ↔ c ∉ l.
Proof.
  unfold cset_has. cbn [negate members].
  assert (H : existsb (item_has c) (Chr <$> l) = false ↔ c ∉ l).
  { induction l as [|d l IH]; simpl.
    - split; [intros _; apply not_elem_of_nil | done].
    - rewrite not_elem_of_cons, orb_false_iff, IH, N.eqb_neq. tauto. }
  rewrite <- H. by destruct (existsb _ _).
Qed.

Lemma lang_lits l w : lang (lits l) w ↔ w = l.
Proof.
  revert w. induction l as [|c l IH]; intros w; simpl; [done|]. split.
  - intros (u & v & -> & -> & Hv). apply IH in Hv. by subst.
  - intros ->. exists [c], l. by rewrite IH.
Qed.

Lemma lang_one_of ws w : ws ≠ [] → lang (one_of ws) w ↔ w ∈ ws.
Proof.
  induction ws as [|x ws IH]; [done|]. intros _.
  destruct ws as [|y ws].
  - simpl. change (lang (lits x) w ↔ w ∈ [x]).
    rewrite lang_lits, list_elem_of_singleton. done.
  - change (lang (lits x) w ∨ lang (one_of (y :: ws)) w ↔ w ∈ x :: y :: ws).
    rewrite lang_lits, IH by done. rewrite (elem_of_cons (y :: ws)). done.
Qed.

Lemma lang_rep_plus k w :
  lang (Rep k 1 None) w ↔ w ≠ [] ∧ Forall (λ c, cset_has k c = true) w.
Proof.
  simpl. destruct w; simpl; split; intros H; destruct_and?; split_and?; auto; try lia.
  done.
Qed.

Lemma lang_rep_star k w :
  lang (Rep k 0 None) w ↔ Forall (λ c, cset_has k c = true) w.
Proof. simpl. split; [tauto|]. intros. split_and?; auto. lia. Qed.

Lemma lang_shape1 w :
  lang shape1 w ↔
  ∃ p c rest, w = p ++ c :: rest ∧ p ∈ prefixes ∧ (c ∉ denied_first)
              ∧ rest ≠ [] ∧ Forall (λ x, x ∉ denied_rest) rest.
Proof.
  unfold shape1.
  change (lang (one_of prefixes ⋅ Cls first_deny ⋅ Rep rest_deny 1 None) w)
    with (∃ u v, w = u ++ v ∧ lang (one_of prefixes) u
                 ∧ ∃ u' v', v = u' ++ v' ∧ (∃ c, u' = [c] ∧ cset_has first_deny c = true)
                            ∧ lang (Rep rest_deny 1 None) v').
  setoid_rewrite lang_rep_plus. setoid_rewrite lang_one_of; [|done].
  unfold first_deny, rest_deny. setoid_rewrite neg_class_has. split.
  - intros (u & v & -> & Hu & u' & v' & -> & (c & -> & Hc) & Hne & Hv).
    exists u, c, v'. split_and!; auto.
  - intros (p0 & c & rest & -> & Hp & Hc & Hne & Hr).
    exists p0, (c :: rest). split_and!; auto.
    exists [c], rest. split_and!; eauto.
Qed.

Lemma lang_shape3_head w :
  lang shape3 w → ∃ c w', w = c :: w' ∧ cset_has name c = true.
Proof.
  intros (u & v & -> & Hu & _). apply lang_rep_plus in Hu as [Hne Hu].
  destruct Hu as [|c u Hc _]; [done|]. eauto.
Qed.

Lemma lang_shape2_head w :
  lang shape2 w → ∃ c w', w = c :: w' ∧ cset_has seg c = true.
Proof.
  intros (u & v & -> & Hu & _). apply lang_rep_plus in Hu as [Hne Hu].
  destruct Hu as [|c u Hc _]; [done|]. eauto.
Qed.

Lemma prefix_unique p p' (x x' : str) :
  p ∈ prefixes → p' ∈ prefixes → p ++ x = p' ++ x' → p = p'.
Proof.
  intros Hp Hp' E.
  assert (Hpre : prefixes = [[47]; [46; 46; 47]; [46; 47]]) by reflexivity.
  rewrite Hpre in Hp, Hp'. rewrite !elem_of_cons, elem_of_nil in Hp, Hp'.
  destruct Hp as [->|[->|[->|[]]]], Hp' as [->|[->|[->|[]]]];
    simpl in E; congruence.
Qed.

Lemma lang_shape2 w :
  lang shape2 w ↔
  ∃ a b e r, w = a ++ ch "/" :: b ++ ch "." :: e ++ r
             ∧ a ≠ [] ∧ all_in seg a ∧ b ≠ [] ∧ all_in seg b ∧ is_ext e
             ∧ (r = [] ∨ ∃ c r', r = c :: r' ∧ cset_has intro c = true
                                 ∧ Forall (λ x, x ∉ denied_tail) r').
Proof.
  unfold shape2, is_ext, all_in.
  change (lang _ w) with
    (∃ u1 v1, w = u1 ++ v1 ∧ lang (Rep seg 1 None) u1 ∧
     ∃ u2 v2, v1 = u2 ++ v2 ∧ u2 = [ch "/"] ∧
     ∃ u3 v3, v2 = u3 ++ v3 ∧ lang (Rep seg 1 None) u3 ∧
     ∃ u4 v4, v3 = u4 ++ v4 ∧ u4 = [ch "."] ∧
     ∃ u5 v5, v4 = u5 ++ v5
       ∧ (lang (Rep letter 1 (Some 4%nat)) u5 ∨ lang (word "action") u5)
       ∧ ((∃ u6 v6, v5 = u6 ++ v6 ∧ (∃ c, u6 = [c] ∧ cset_has intro c = true)
                    ∧ lang (Rep tail_deny 0 None) v6)
          ∨ v5 = [])).
  setoid_rewrite lang_rep_plus. setoid_rewrite lang_rep_star.
  unfold word. setoid_rewrite lang_lits.
  unfold tail_deny. setoid_rewrite neg_class_has. split.
  - intros (a & ? & -> & [Ha1 Ha2] & ? & ? & -> & -> & b & ? & -> & [Hb1 Hb2]
            & ? & ? & -> & -> & e & r & -> & He & Hr).
    exists a, b, e, r. split_and!; auto.
    + destruct He as [(He1 & He2 & He3)|He]; [left|by right]. simpl in *. auto.
    + destruct Hr as [(? & r' & -> & (c & -> & Hc) & Hr)| ->]; [right|by left].
      exists c, r'. auto.
  - intros (a & b & e & r & -> & Ha1 & Ha2 & Hb1 & Hb2 & He & Hr).
    exists a, (ch "/" :: b ++ ch "." :: e ++ r). split_and!; auto.
    exists [ch "/"], (b ++ ch "." :: e ++ r). split_and!; auto.
    exists b, (ch "." :: e ++ r). split_and!; auto.
    exists [ch "."], (e ++ r). split_and!; auto.
    exists e, r. split_and!; auto.
    + destruct He as [[[He1 He2] He3]|He]; [left|by right]. simpl. auto.
    + destruct Hr as [->|(c & r' & -> & Hc & Hr)]; [by right|left].
      exists [c], r'. split_and!; eauto.
Qed.

Lemma lang_shape3 w :
  lang shape3 w ↔
  ∃ nm ext r, w = nm ++ ch "." :: ext ++ r
              ∧ nm ≠ [] ∧ all_in name nm ∧ ext ∈ extensions
              ∧ (r = [] ∨ ∃ r', r = ch "?" :: r' ∧ Forall (λ x, x ∉ denied_tail) r').
Proof.
  unfold shape3, all_in.
  change (lang _ w) with
    (∃ u1 v1, w = u1 ++ v1 ∧ lang (Rep name 1 None) u1 ∧
     ∃ u2 v2, v1 = u2 ++ v2 ∧ u2 = [ch "."] ∧
     ∃ u3 v3, v2 = u3 ++ v3 ∧ lang (one_of extensions) u3
       ∧ ((∃ u4 v4, v3 = u4 ++ v4 ∧ u4 = [ch "?"] ∧ lang (Rep tail_deny 0 None) v4)
          ∨ v3 = [])).
  setoid_rewrite lang_rep_plus. setoid_rewrite lang_rep_star.
  setoid_rewrite lang_one_of; [|done].
  unfold tail_deny. setoid_rewrite neg_class_has. split.
  - intros (nm & ? & -> & [Hn1 Hn2] & ? & ? & -> & -> & e & r & -> & He & Hr).
    exists nm, e, r. split_and!; auto.
    destruct Hr as [(? & r' & -> & -> & Hr)| ->]; [right|by left]. eauto.
  - intros (nm & e & r & -> & Hn1 & Hn2 & He & Hr).
    exists nm, (ch "." :: e ++ r). split_and!; auto.
    exists [ch "."], (e ++ r). split_and!; auto.
    exists e, r. split_and!; auto.
    destruct Hr as [->|(r' & -> & Hr)]; [by right|left].
    exists [ch "?"], r'. split_and!; eauto.
Qed.

Lemma prefixes_quote_free p : p ∈ prefixes → Forall (λ c, ¬ is_quote c) p.
Proof.
  assert (Hpre : prefixes = [[47]; [46; 46; 47]; [46; 47]]) by reflexivity.
  rewrite Hpre, !elem_of_cons, elem_of_nil.
  intros [->|[->|[->|[]]]]; repeat constructor; by intros [?|?].
Qed.

Lemma prefixes_head p (x : str) :
  p ∈ prefixes → ∃ c w, p ++ x = c :: w ∧ (c = 47 ∨ c = 46).
Proof.
  assert (Hpre : prefixes = [[47]; [46; 46; 47]; [46; 47]]) by reflexivity.
  rewrite Hpre, !elem_of_cons, elem_of_nil.
  intros [->|[->|[->|[]]]]; simpl; eauto.
Qed.

(** C2, as stated, fails: in the script ['/ab c'] the literal begins with [/],
    four more characters follow, one of them is the denylisted space, and the
    literal is a candidate all the same. *)
Lemma path_literal_counterexample :
  txt "/" ++ txt "ab c" ∈ extract_urls_from_js (raw "'/ab c'")
  ∧ ¬ Forall (λ c, (c ∉ spec_denylist) ∧ ¬ is_quote c) (txt "ab c").
Proof.
  split; [vm_compute; left|].
  intros H. rewrite Forall_forall in H.
  destruct (H (ch " ")) as [Hsp _].
  - by_compute.
  - apply Hsp. by_compute.
Qed.

(** C2, amended.  Take a script whose text holds, after [pre], a literal
    between two quote characters that has no quote character inside, begins
    with [/], [../] or [./] and goes on with a character [c] and at least one
    more ([rest]), and let no earlier match of the scan run over the opening
    quote.  Then the scan yields the literal at that place exactly when [c] is
    none of the characters denied after the prefix (quotes, angle brackets,
    comma, semicolon, pipe, space, star, parentheses, percent, dollar, caret,
    slash, backslash, brackets) and no character of [rest] is a quote, an
    angle bracket, a comma, a semicolon, a pipe or a parenthesis -- or when
    the literal has shape 2.  What is yielded is a member of the result of
    [extract_urls_from_js], without the quotes; and the script that is the
    double-quoted [/api/v1/users] gives exactly that one candidate. *)
Theorem path_literal_yielded :
  (∀ (js : bytes) (pre post : str) (q q' : N) (p : str) (c : N) (rest : str),
     let lit := p ++ c :: rest in
     let text := decode_utf8_ignore js in
     text = pre ++ q :: lit ++ q' :: post →
     is_quote q → is_quote q' →
     p ∈ prefixes → rest ≠ [] →
     Forall (λ x, ¬ is_quote x) (c :: rest) →
     no_match_across text (length pre) →
     (yields text (length pre) lit
      ↔ ((c ∉ denied_first) ∧ Forall (λ x, x ∉ denied_rest) rest) ∨ lang shape2 lit)
     ∧ (yields text (length pre) lit → lit ∈ extract_urls_from_js js))
  ∧ extract_urls_from_js (x22 :: raw "/api/v1/users" ++ [x22]) = [txt "/api/v1/users"].
Proof.
  split; [|by vm_compute].
  intros js pre post q q' p c rest lit text Htext Hq Hq' Hp Hne Hnq Hno.
  split; [|apply yields_elem_of].
  rewrite Htext in *. rewrite yields_quoted; auto.
  2: { apply Forall_app. split; [by apply prefixes_quote_free | done]. }
  change (lang group1 lit) with (lang shape1 lit ∨ lang shape2 lit ∨ lang shape3 lit).
  rewrite lang_shape1. split.
  - intros [(p2 & c2 & rest2 & E & Hp2 & Hc2 & Hne2 & Hr2)|[H|H]]; [|by right|].
    + left. unfold lit in E.
      pose proof (prefix_unique _ _ _ _ Hp Hp2 E) as ->.
      apply app_inv_head in E. by simplify_eq.
    + exfalso. apply lang_shape3_head in H as (c0 & w' & E & Hc0).
      destruct (prefixes_head p (c :: rest) Hp) as (c1 & w1 & E1 & Hc1).
      unfold lit in E. rewrite E1 in E. injection E as -> _.
      by destruct Hc1 as [-> | ->].
  - intros [[Hc Hr]|H]; [left|by right; left].
    exists p, c, rest. auto.
Qed.

(** *** Facts on the classes *)

Lemma regroup (a b x : str) c : a ++ c :: b ++ x = (a ++ c :: b) ++ x.
Proof. by rewrite <- (assoc_L (++)). Qed.

Lemma class_excludes k d c : cset_has k d = false → cset_has k c = true → c ≠ d.
Proof. intros Hd Hc ->. congruence. Qed.

Lemma all_in_excludes k d w : cset_has k d = false → all_in k w → d ∉ w.
Proof.
  intros Hd Hw Hin. unfold all_in in Hw. rewrite Forall_forall in Hw.
  apply Hw in Hin. congruence.
Qed.

Lemma all_in_quote_free k w :
  cset_has k dquote = false → cset_has k squote = false → all_in k w →
  Forall (λ c, ¬ is_quote c) w.
Proof.
  intros Hd Hs Hw. eapply Forall_impl; [exact Hw|].
  intros c Hc [-> | ->]; congruence.
Qed.

Lemma intro_cases c : cset_has intro c = true ↔ c = ch "?" ∨ c = ch "|" ∨ c = ch "/".
Proof.
  unfold cset_has, intro. cbn [negate members existsb item_has xorb].
  rewrite !orb_true_iff, !N.eqb_eq. change (ch "?") with 63.
  change (ch "|") with 124. change (ch "/") with 47. intuition discriminate.
Qed.

Lemma is_ext_letters e : is_ext e → e ≠ [] ∧ all_in letter e.
Proof.
  intros [[[H1 H2] H]| ->].
  - split; [|done]. intros ->. simpl in H1. lia.
  - split; [done|]. unfold all_in. by repeat constructor.
Qed.

(** C3, as stated, fails: in the script ['a/b.js/xyz'] the candidate has shape
    2 only, its extension is [js], and what follows the extension is
    introduced by [/], not by [?]. *)
Lemma relative_path_counterexample :
  extract_urls_from_js (raw "'a/b.js/xyz'") = [txt "a/b" ++ txt ".js" ++ txt "/xyz"]
  ∧ matches shape2 (txt "a/b.js/xyz") = true
  ∧ matches shape1 (txt "a/b.js/xyz") = false
  ∧ matches shape3 (txt "a/b.js/xyz") = false
  ∧ matches shape2 (txt "a/b.js") = true
  ∧ head (txt "/xyz") ≠ Some (ch "?").
Proof. by vm_compute. Qed.

(** C3, amended.  Take a script whose text holds, after [pre], a literal
    between two quote characters made of a segment [a] that does not begin
    with [/], a slash, a segment [b], a dot, an extension [e] of one to four
    letters or the word [action], and whatever follows ([r], without quote
    characters, beginning neither with a letter nor with a pipe); let no
    earlier match of the scan run over the opening quote.  Then the scan
    yields the literal exactly when nothing follows the extension, or what
    follows begins with [?] or with [/] and holds no pipe. *)
Theorem relative_path_remainder :
  ∀ (js : bytes) (pre post : str) (q q' : N) (a b e r : str),
    let lit := a ++ ch "/" :: b ++ ch "." :: e ++ r in
    let text := decode_utf8_ignore js in
    text = pre ++ q :: lit ++ q' :: post →
    is_quote q → is_quote q' →
    a ≠ [] → all_in seg a → head a ≠ Some (ch "/") →
    b ≠ [] → all_in seg b →
    is_ext e →
    Forall (λ x, ¬ is_quote x) r →
    (∀ c, head r = Some c → cset_has letter c = false ∧ c ≠ ch "|") →
    no_match_across text (length pre) →
    (yields text (length pre) lit
     ↔ r = [] ∨ ∃ c r', r = c :: r' ∧ (c = ch "?" ∨ c = ch "/") ∧ (ch "|" ∉ r'))
    ∧ (yields text (length pre) lit → lit ∈ extract_urls_from_js js).
Proof.
  intros js pre post q q' a b e r lit text Htext Hq Hq' Ha Hsa Hha Hb Hsb He Hr Hhr Hno.
  split; [|apply yields_elem_of].
  destruct (is_ext_letters e He) as [Hene Hel].
  assert (Hab : all_in seg (a ++ ch "/" :: b)).
  { apply Forall_app. split; [done|]. by constructor. }
  rewrite Htext in *. rewrite yields_quoted; auto.
  2: { unfold lit. rewrite regroup. apply Forall_app. split.
       - by apply (all_in_quote_free seg).
       - constructor; [by intros [?|?]|]. apply Forall_app. split; [|done].
         by apply (all_in_quote_free letter). }
  change (lang group1 lit) with (lang shape1 lit ∨ lang shape2 lit ∨ lang shape3 lit).
  split.
  - intros [H|[H|H]].
    + exfalso. apply lang_shape1 in H as (p & c & rest & E & Hp & _).
      destruct (prefixes_head p (c :: rest) Hp) as (c1 & w1 & E1 & Hc1).
      rewrite E1 in E. unfold lit in E. destruct Hsa as [|c0 a Hc0 _]; [done|].
      injection E as <- _. destruct Hc1 as [-> | ->]; [by apply Hha|done].
    + apply lang_shape2 in H as (a2 & b2 & e2 & r2 & E & Ha2 & Hsa2 & Hb2 & Hsb2 & He2 & Hr2).
      destruct (is_ext_letters e2 He2) as [_ Hel2].
      assert (Hab2 : all_in seg (a2 ++ ch "/" :: b2)).
      { apply Forall_app. split; [done|]. by constructor. }
      unfold lit in E. rewrite (regroup a b), (regroup a2 b2) in E.
      apply (span_unique (λ c, cset_has seg c = true)) in E as [_ E]; auto;
        [|by simpl..].
      injection E as E.
      apply (span_unique (λ c, cset_has letter c = true)) in E as [_ <-]; auto.
      * destruct Hr2 as [->|(c & r' & -> & Hc & Hr')]; [by left|right].
        exists c, r'. split; [done|].
        destruct (Hhr c eq_refl) as [_ Hpipe].
        apply intro_cases in Hc as [->|[->| ->]]; [|done|]; (split; [auto|]);
          rewrite Forall_forall in Hr'; intros Hin; apply Hr' in Hin;
          apply Hin; by_compute.
      * destruct r as [|c r]; [done|]. simpl. destruct (Hhr c eq_refl). congruence.
      * destruct Hr2 as [->|(c & r' & -> & Hc & _)]; [done|]. simpl.
        by apply intro_cases in Hc as [->|[->| ->]].
    + exfalso. apply lang_shape3 in H as (nm & ext & r3 & E & Hnm & Hsn & _).
      unfold lit in E. rewrite (regroup a b) in E.
      apply (span_unique (λ c, c ≠ ch ".")) in E as [E _].
      * apply (all_in_excludes name (ch "/") nm); [done|done|].
        rewrite <- E. apply elem_of_app. right. by left.
      * eapply Forall_impl; [exact Hab|]. intros c. by apply class_excludes.
      * eapply Forall_impl; [exact Hsn|]. intros c. by apply class_excludes.
      * simpl. tauto.
      * simpl. tauto.
  - intros Hrem. right; left. apply lang_shape2.
    exists a, b, e, r. split_and!; auto.
    destruct Hrem as [->|(c & r' & -> & Hc & Hpipe)]; [by left|right].
    exists c, r'. split_and!; auto.
    + apply intro_cases. tauto.
    + apply Forall_cons in Hr as [_ Hr]. rewrite Forall_forall in Hr |- *.
      intros x Hx. unfold denied_tail. rewrite !elem_of_cons, elem_of_nil.
      intros [->|[->|[->|[]]]]; [|done|].
      * apply (Hr _ Hx). by left.
      * apply (Hr _ Hx). by right.
Qed.

Lemma extensions_quote_free :
  Forall (λ e, Forall (λ c, ¬ is_quote c) e) extensions.
Proof. by_compute. Qed.

(** C4, as stated, fails twice.  The script ['a.php?x|y'] is a quoted bare
    file name with a listed extension and a remainder introduced by [?], and
    the scan yields nothing: a remainder stops at a pipe.  And in the
    double-quoted script [/a b c 'report.js'] the earlier match ends on the
    opening quote of ['report.js'], which is therefore not a candidate. *)
Lemma filename_counterexample :
  extract_urls_from_js (raw "'a.php?x|y'") = []
  ∧ extract_urls_from_js (x22 :: raw "/a b c 'report.js'" ++ [x22]) = [txt "/a b c "]
  ∧ txt "report.js" ∉ extract_urls_from_js (x22 :: raw "/a b c 'report.js'" ++ [x22]).
Proof.
  split_and!; [by vm_compute..|].
  by_compute.
Qed.

(** C4, amended.  Take a script whose text holds, after [pre], a literal
    between two quote characters made of a file name of letters, digits,
    underscores and dashes, a dot, one of the extensions [php], [asp], [aspx],
    [jsp], [json], [action], [html], [js], [txt], [xml], and then nothing or a
    remainder introduced by [?] that holds neither a quote character nor a
    pipe; let no earlier match of the scan run over the opening quote.  Then the
    scan yields the literal, remainder included and quotes excluded, and it is
    a member of the result of [extract_urls_from_js].  The script that is the
    double-quoted [report.action?id=5] gives exactly that one candidate. *)
Theorem filename_yielded :
  (∀ (js : bytes) (pre post : str) (q q' : N) (nm ext r : str),
     let lit := nm ++ ch "." :: ext ++ r in
     let text := decode_utf8_ignore js in
     text = pre ++ q :: lit ++ q' :: post →
     is_quote q → is_quote q' →
     nm ≠ [] → all_in name nm → ext ∈ extensions →
     (r = [] ∨ ∃ r', r = ch "?" :: r' ∧ Forall (λ x, x ∉ denied_tail) r') →
     no_match_across text (length pre) →
     yields text (length pre) lit ∧ lit ∈ extract_urls_from_js js)
  ∧ extract_urls_from_js (x22 :: raw "report.action?id=5" ++ [x22])
    = [txt "report.action?id=5"].
Proof.
  split; [|by vm_compute].
  intros js pre post q q' nm ext r lit text Htext Hq Hq' Hnm Hsn Hext Hr Hno.
  assert (Hy : yields text (length pre) lit);
    [|split; [done|by apply (yields_elem_of _ (length pre))]].
  rewrite Htext in *. apply yields_quoted; auto.
  - unfold lit. apply Forall_app. split; [by apply (all_in_quote_free name)|].
    constructor; [by intros [?|?]|]. apply Forall_app. split.
    + pose proof extensions_quote_free as H. rewrite Forall_forall in H. by apply H.
    + destruct Hr as [->|(r' & -> & Hr')]; [done|].
      constructor; [by intros [?|?]|]. eapply Forall_impl; [exact Hr'|].
      intros c Hc [-> | ->]; apply Hc; unfold denied_tail;
        rewrite !elem_of_cons; auto.
  - right; right. apply lang_shape3. exists nm, ext, r. auto.
Qed.

(** ** The Fetcher *)

(** C6, as stated, fails: not every status that is no success makes
    [DefaultRequests.get] return [None].  A response with status 300
    (Multiple Choices, which the session does not follow) is no success, and
    [get] returns its body as the payload: [raise_for_status] rejects the 4xx
    and 5xx codes and no other. *)
Lemma default_get_counterexample :
  ∃ resp : Response,
    session_get demo (txt "http://t/choices") DEFAULT_TIMEOUT false = Ok resp
    ∧ status_code resp = 300
    ∧ ¬ (200 ≤ status_code resp < 300)
    ∧ content resp ≠ []
    ∧ DefaultRequests_get demo DEFAULT_TIMEOUT (txt "http://t/choices") false
      = Ok (Some (content resp)).
Proof.
  eexists. split; [reflexivity|]. cbn [status_code content]. split_and!; [done|lia|done|].
  by vm_compute.
Qed.

(** C6, amended.  [DefaultRequests.get] returns [None], and so does not
    raise, when the request raises an [Exception] (a connection error or a
    timeout among them) and when the response has a 4xx or 5xx status, the
    codes [raise_for_status] rejects.  For a response with any other status,
    a success or not, it returns the content as the payload; and it returns a
    payload in no other case. *)
Theorem default_get_absorbs_failures :
  ∀ (w : World) (timeout : N) (url : str) (verify_ssl : bool),
    let call := session_get w url timeout verify_ssl in
    let got := DefaultRequests_get w timeout url verify_ssl in
    (∀ e, call = Raise e → is_Exception e = true → got = Ok None)
    ∧ (call = Raise ConnectionError ∨ call = Raise ReadTimeout → got = Ok None)
    ∧ (∀ resp, call = Ok resp → 400 ≤ status_code resp < 600 → got = Ok None)
    ∧ (∀ resp, call = Ok resp → ¬ (400 ≤ status_code resp < 600) →
         got = Ok (Some (content resp)))
    ∧ (∀ payload, got = Ok (Some payload) →
         ∃ resp, call = Ok resp ∧ ¬ (400 ≤ status_code resp < 600)
                 ∧ payload = content resp)
    ∧ (∀ e, got = Raise e → is_Exception e = false).
Proof.
  intros w timeout url verify_ssl call got. unfold got, DefaultRequests_get.
  fold call. split_and!.
  - intros e -> He. simpl. by rewrite He.
  - by intros [-> | ->].
  - intros resp -> Hst. simpl. unfold raise_for_status.
    destruct (N.leb_spec 400 (status_code resp)); [|lia].
    destruct (N.ltb_spec (status_code resp) 600); [|lia]. done.
  - intros resp -> Hst. simpl. unfold raise_for_status.
    destruct (N.leb_spec 400 (status_code resp));
      destruct (N.ltb_spec (status_code resp) 600); simpl; try done. lia.
  - intros payload. destruct call as [resp|e]; simpl.
    + unfold raise_for_status.
      destruct (N.leb_spec 400 (status_code resp));
        destruct (N.ltb_spec (status_code resp) 600); simpl;
        intros [= <-]; exists resp; split_and!; auto; lia.
    + by destruct (is_Exception e).
  - intros e. destruct call as [resp|e']; simpl.
    + unfold raise_for_status.
      by destruct (_ && _).
    + destruct (is_Exception e') eqn:E; [done|]. by intros [= <-].
Qed.

(** ** The ExtensionLoader *)

Lemma load_custom_nonexistent w path names :
  nonexistent w path → load_custom w (Some path) names = Ok (DefaultParsed w, DefaultRequests w).
Proof.
  unfold nonexistent, load_custom. destruct names as [pn rn].
  destruct path as [|c path]; [done|].
  destruct (endswith _ _); by intros ->.
Qed.

(** C8. For a source that does not exist, a file path ending in [.py] or a
    module name, [load_custom] returns the built-in pair, the same pair as
    with no source; and a run that names such a source (with a role name, as
    [main] demands) prints what the run without a source prints, on the same
    targets. *)
Theorem nonexistent_source_falls_back :
  ∀ (w : World) (path : str) (names : option str * option str),
    nonexistent w path →
    load_custom w (Some path) names = Ok (DefaultParsed w, DefaultRequests w)
    ∧ load_custom w (Some path) names = load_custom w None names
    ∧ (∀ args : Args,
         custom_module args = Some path →
         given (parsed_name args) || given (request_name args) = true →
         main w args = main w (with_custom_module None args)).
Proof.
  intros w path names Hne. split_and!.
  - by apply load_custom_nonexistent.
  - rewrite load_custom_nonexistent by done. by destruct names.
  - intros args Hcm Hnames. unfold main.
    cbn [with_custom_module custom_module url file parsed_name request_name ssl].
    rewrite Hcm, Hnames, load_custom_nonexistent by done.
    cbn [negb]. rewrite !andb_false_r. reflexivity.
Qed.

(** ** The Orchestrator *)

(** C7 does not hold of the code: the worker count of the arguments ([-w],
    10 when absent) reaches nothing.  Whatever it is, the run is the same and
    the pool of [process_target] is bound by [min(32, cpu_count + 4)]. *)
Theorem workers_option_unused :
  ∀ (w : World) (args : Args) (n : nat),
    main w (with_workers n args) = main w args
    ∧ max_workers (target_pool w) = (32 `min` (cpu_count w + 4))%nat.
Proof. done. Qed.


Lemma collect_spec parsed_inst fs found0 :
  (∀ f, f ∈ fs → ∃ o, f = Ok o) →
  (∀ js, Ok (Some js) ∈ fs → js ≠ [] →
         ∃ urls, ParsedInterface.extract_urls_from_js parsed_inst js = Ok urls) →
  ∃ found, collect parsed_inst fs found0 = Ok found
    ∧ ∀ x, x ∈ found ↔
           x ∈ found0
           ∨ ∃ js urls, Ok (Some js) ∈ fs ∧ js ≠ []
                        ∧ ParsedInterface.extract_urls_from_js parsed_inst js = Ok urls
                        ∧ x ∈ urls.
Proof.
  revert found0. induction fs as [|f fs IH]; intros found0 Hret Hscan.
  - exists found0. split; [done|]. intros x. split; [auto|].
    intros [?|(js & urls & []%elem_of_nil & _)]; done.
  - destruct (Hret f) as [o ->]; [by left|].
    assert (Hret' : ∀ f, f ∈ fs → ∃ o, f = Ok o) by (intros; apply Hret; by right).
    assert (Hscan' : ∀ js, Ok (Some js) ∈ fs → js ≠ [] →
              ∃ urls, ParsedInterface.extract_urls_from_js parsed_inst js = Ok urls)
      by (intros; apply Hscan; [by right|done]).
    assert (Hskip : o = None ∨ o = Some [] →
      ∃ found, collect parsed_inst (Ok o :: fs) found0 = Ok found
        ∧ ∀ x, x ∈ found ↔
               x ∈ found0
               ∨ ∃ js urls, Ok (Some js) ∈ Ok o :: fs ∧ js ≠ []
                   ∧ ParsedInterface.extract_urls_from_js parsed_inst js = Ok urls
                   ∧ x ∈ urls).
    { intros Ho. destruct (IH found0 Hret' Hscan') as (found & Hc & Hx).
      exists found. split; [by destruct Ho as [-> | ->]|].
      intros x. rewrite Hx. split.
      - intros [?|(js & urls & ? & ?)]; [by left|right].
        exists js, urls. split; [by right|done].
      - intros [?|(js & urls & [E|?]%elem_of_cons & Hne & ?)]; [by left| |right; eauto].
        destruct Ho; simplify_eq. }
    destruct o as [[|b js]|]; [apply Hskip; auto| |apply Hskip; auto].
    destruct (Hscan (b :: js)) as [urls Hurls]; [by left|done|].
    destruct (IH (found0 ∪ list_to_set urls) Hret' Hscan') as (found & Hc & Hx).
    exists found. split.
    + simpl. rewrite Hurls. simpl. exact Hc.
    + intros x. rewrite Hx, elem_of_union, elem_of_list_to_set. split.
      * intros [[?|?]|(js' & urls' & ? & ?)]; [by left|right..].
        -- exists (b :: js), urls. split_and!; auto. by left.
        -- exists js', urls'. split; [by right|done].
      * intros [?|(js' & urls' & [E|?]%elem_of_cons & Hne & Hu & Hin)]; [by left; left| |].
        -- injection E as ->. rewrite Hurls in Hu. injection Hu as <-.
           left; right. done.
        -- right. exists js', urls'. done.
Qed.

(** *** Resolving the references: the comprehension over [urljoin] *)

Lemma mapM_Ok {A B} (f : A → result B) l k :
  mapM f l = Ok k ↔ Forall2 (λ x y, f x = Ok y) l k.
Proof.
  revert k. induction l as [|x l IH]; intros k; cbn [mapM].
  - split; [intros [= <-]; constructor|by inversion 1].
  - destruct (f x) as [y|e] eqn:E; cbn [mbind result_bind].
    + destruct (mapM f l) as [k'|e] eqn:E'; cbn [mbind result_bind mret result_ret].
      * split.
        -- intros [= <-]. constructor; [done|by apply IH].
        -- inversion 1 as [|? y' ? k'' Hy Hk]; subst.
           rewrite E in Hy. injection Hy as <-.
           apply IH in Hk. by injection Hk as <-.
      * split; [done|]. inversion 1 as [|? y' ? k'' Hy Hk]; subst. by apply IH in Hk.
    + split; [done|]. inversion 1 as [|? y' ? k'' Hy Hk]; subst. by rewrite E in Hy.
Qed.

Lemma mapM_Ok_elem {A B} (f : A → result B) l k x :
  mapM f l = Ok k → x ∈ l → ∃ y, f x = Ok y.
Proof.
  intros H%mapM_Ok Hx. induction H as [|x' y l k Hy _ IH]; [by apply elem_of_nil in Hx|].
  apply elem_of_cons in Hx as [->|Hx]; eauto.
Qed.


Lemma mapM_raises {A B} (f : A → result B) pre x post e :
  (∀ x', x' ∈ pre → ∃ y, f x' = Ok y) → f x = Raise e →
  mapM f (pre ++ x :: post) = Raise e.
Proof.
  intros H He. induction pre as [|x' pre IH]; cbn [app mapM].
  - by rewrite He.
  - destruct (H x') as [y ->]; [by left|]. cbn [mbind result_bind].
    rewrite IH; [done|]. intros; apply H; by right.
Qed.

Lemma mapM_raises_inv {A B} (f : A → result B) l e :
  mapM f l = Raise e → ∃ x, x ∈ l ∧ f x = Raise e.
Proof.
  induction l as [|x l IH]; cbn [mapM]; [done|].
  destruct (f x) as [y|e'] eqn:E; cbn [mbind result_bind].
  - destruct (mapM f l) as [k|e'] eqn:E'; cbn [mbind result_bind]; [done|].
    intros [= ->]. destruct IH as (x' & ? & ?); [done|]. exists x'. split; [by right|done].
  - intros [= ->]. exists x. split; [by left|done].
Qed.


Lemma futures_elem_of w (req_inst : RequestsInterface.t) url verify_ssl
    scripts full_js_urls pool f :
  (∀ pool fs, as_completed w pool fs ≡ₚ fs) →
  mapM (urljoin w url) scripts = Ok full_js_urls →
  f ∈ as_completed w pool
        ((λ js_url, RequestsInterface.get req_inst js_url verify_ssl) <$> full_js_urls)
  ↔ ∃ s, s ∈ scripts
         ∧ f = urljoin w url s ≫= λ js_url, RequestsInterface.get req_inst js_url verify_ssl.
Proof.
  intros Hp Hfull. rewrite (Hp _ _), list_elem_of_fmap. apply mapM_Ok in Hfull.
  induction Hfull as [|s j scripts full Hs _ IH].
  - split; [intros (j & _ & []%elem_of_nil)|intros (s & []%elem_of_nil & _)].
  - split.
    + intros (j' & -> & [->|Hj]%elem_of_cons).
      * exists s. split; [by left|]. by rewrite Hs.
      * destruct (proj1 IH) as (s' & ? & ?); [by exists j'|].
        exists s'. split; [by right|done].
    + intros (s' & [->|Hs']%elem_of_cons & ->).
      * exists j. rewrite Hs. split; [done|by left].
      * destruct (proj2 IH) as (j' & ? & ?); [by exists s'|].
        exists j'. split; [done|by right].
Qed.

Lemma process_target_fetched w url parsed_inst req_inst verify_ssl html :
  RequestsInterface.get req_inst url verify_ssl = Ok (Some html) → html ≠ [] →
  process_target w url parsed_inst req_inst verify_ssl
  = scripts ← ParsedInterface.extract_scripts parsed_inst html;
    full_js_urls ← mapM (urljoin w url) scripts;
    collect parsed_inst
      (as_completed w (target_pool w)
         ((λ js_url, RequestsInterface.get req_inst js_url verify_ssl)
            <$> full_js_urls)) ∅.
Proof.
  intros H Hne. unfold process_target. rewrite H. cbn [mbind result_bind].
  by destruct html.
Qed.

Section Orchestrator.
Variable w : World.
(** The completed futures are the submitted ones, in some order. *)
Hypothesis as_completed_perm : ∀ pool fs, as_completed w pool fs ≡ₚ fs.

End Orchestrator.

(** C10. A page fetch that succeeds with an empty payload is treated as a
    failed one: [process_target] returns the empty set, as it does when the
    fetch gives no payload, and it does so for every parser (also one whose
    methods would raise), for the parser is not consulted. *)
Theorem empty_page_is_failed_page :
  ∀ (w : World) (url : str) (parsed_inst : ParsedInterface.t)
    (req_inst : RequestsInterface.t) (verify_ssl : bool),
    RequestsInterface.get req_inst url verify_ssl = Ok (Some []) →
    process_target w url parsed_inst req_inst verify_ssl = Ok ∅
    ∧ (∀ req_inst' : RequestsInterface.t,
         RequestsInterface.get req_inst' url verify_ssl = Ok None →
         process_target w url parsed_inst req_inst' verify_ssl
         = process_target w url parsed_inst req_inst verify_ssl)
    ∧ (∀ parsed_inst' : ParsedInterface.t,
         process_target w url parsed_inst' req_inst verify_ssl = Ok ∅).
Proof.
  intros w url parsed_inst req_inst verify_ssl H.
  unfold process_target. rewrite H. split_and!; [done| |done].
  by intros req_inst' ->.
Qed.

Lemma demo_as_completed_perm pool fs : as_completed demo pool fs ≡ₚ fs.
Proof. apply reverse_Permutation. Qed.

(** ** The definitions on small inputs *)

Example strip_example : strip (txt "  /api/v1 ") = txt "/api/v1".
Proof. reflexivity. Qed.

Example clean_example :
  clean (list_to_set [txt " b "; txt "a"; txt "b"; txt "  "; txt "B"])
  = [txt "B"; txt "a"; txt "b"].
Proof. vm_compute. reflexivity. Qed.

Example decode_example :
  decode_utf8_ignore [x61; xc3; xa9; xff; xe2; x82; xac; xc3] = [97; 233; 8364].
Proof. reflexivity. Qed.

Example scan_example :
  extract_urls_from_js (raw "a='/api/v1/users';b='lib/app.js';c='x.json?p=1';d='no'")
  = [txt "/api/v1/users"; txt "lib/app.js"; txt "x.json?p=1"].
Proof. by vm_compute. Qed.

Example process_target_example :
  process_target demo (txt "http://t/") (DefaultParsed_new demo)
    (DefaultRequests_new demo) false
  = Ok (list_to_set [txt "/api/v1/users"; txt "a.json"]).
Proof. by vm_compute. Qed.

Example main_example : main demo demo_args = Ok [txt "/api/v1/users"; txt "a.json"].
Proof. by vm_compute. Qed.

Lemma decode_utf8_ignore_ascii (js : bytes) :
  Forall (λ b, Byte.to_N b < 128) js → decode_utf8_ignore js = Byte.to_N <$> js.
Proof.
  induction 1 as [|b js Hb _ IH]; [done|]. simpl.
  apply N.ltb_lt in Hb. rewrite Hb. by rewrite IH.
Qed.

(** ** The theorems at concrete inputs *)

Lemma clean_normal_form_witness :
  clean (list_to_set [txt " b "; txt "a"; txt "b"])
  = clean (list_to_set [txt "b"; txt "a"; txt " b "; txt "a"]).
Proof.
  destruct (clean_normal_form ∅) as (_ & _ & _ & _ & _ & _ & H). apply H.
  intros x. rewrite !elem_of_cons, !elem_of_nil. tauto.
Defined.

Lemma path_literal_yielded_witness :
  txt "/api/v1" ∈ extract_urls_from_js (raw "x='/api/v1';").
Proof.
  destruct path_literal_yielded as [H _].
  destruct (H (raw "x='/api/v1';") (txt "x=") (txt ";") squote squote
              (txt "/") (ch "a") (txt "pi/v1")) as [Hiff Hin].
  - reflexivity.
  - by right.
  - by right.
  - by_compute.
  - done.
  - by_compute.
  - by_compute.
  - apply Hin, Hiff. left. split; by_compute.
Defined.

Lemma relative_path_remainder_witness :
  txt "lib/app.js?v=2" ∈ extract_urls_from_js (raw "s='lib/app.js?v=2'").
Proof.
  destruct (relative_path_remainder (raw "s='lib/app.js?v=2'") (txt "s=") []
              squote squote (txt "lib") (txt "app") (txt "js") (txt "?v=2"))
    as [Hiff Hin].
  - reflexivity.
  - by right.
  - by right.
  - done.
  - by_compute.
  - done.
  - done.
  - by_compute.
  - left. split; [simpl; lia|]. by_compute.
  - by_compute.
  - intros c [= <-]. split; [reflexivity|discriminate].
  - by_compute.
  - apply Hin, Hiff. right. exists (ch "?"), (txt "v=2"). split_and!; [done|by left|].
    by_compute.
Defined.

Lemma filename_yielded_witness :
  txt "report.action?id=5" ∈ extract_urls_from_js (raw "u='report.action?id=5';").
Proof.
  destruct filename_yielded as [H _].
  apply (H (raw "u='report.action?id=5';") (txt "u=") (txt ";") squote squote
           (txt "report") (txt "action") (txt "?id=5")).
  - reflexivity.
  - by right.
  - by right.
  - done.
  - by_compute.
  - by_compute.
  - right. exists (txt "id=5"). split; [done|].
    by_compute.
  - by_compute.
Defined.

Lemma default_get_absorbs_failures_witness :
  DefaultRequests_get demo 5 (txt "http://u/c.js") false = Ok None
  ∧ DefaultRequests_get demo 5 (txt "http://t/b.js") false = Ok None
  ∧ DefaultRequests_get demo 5 (txt "http://t/choices") false
    = Ok (Some (raw "<a href=/a>a</a><a href=/b>b</a>"))
  ∧ ∃ resp, session_get demo (txt "http://t/a.js") 5 false = Ok resp
            ∧ ¬ (400 ≤ status_code resp < 600)
            ∧ raw "x='/api/v1/users';y='a.json'" = content resp.
Proof.
  split_and!.
  - apply (default_get_absorbs_failures demo 5 (txt "http://u/c.js") false).
    by right.
  - destruct (default_get_absorbs_failures demo 5 (txt "http://t/b.js") false)
      as (_ & _ & H & _).
    eapply H; [reflexivity|]. simpl. lia.
  - destruct (default_get_absorbs_failures demo 5 (txt "http://t/choices") false)
      as (_ & _ & _ & H & _).
    apply (H {| status_code := 300; content := raw "<a href=/a>a</a><a href=/b>b</a>" |});
      [reflexivity|]. simpl. lia.
  - destruct (default_get_absorbs_failures demo 5 (txt "http://t/a.js") false)
      as (_ & _ & _ & _ & H & _).
    apply H. reflexivity.
Defined.


Lemma nonexistent_source_falls_back_witness :
  load_custom demo (Some (txt "plugin.py")) (Some (txt "MyParsed"), None)
  = Ok (DefaultParsed demo, DefaultRequests demo)
  ∧ load_custom demo (Some (txt "no.such.module")) (None, Some (txt "MyRequests"))
    = load_custom demo None (None, Some (txt "MyRequests"))
  ∧ main demo demo_args = main demo (with_custom_module None demo_args).
Proof.
  split_and!.
  - apply (nonexistent_source_falls_back demo (txt "plugin.py")). reflexivity.
  - apply (nonexistent_source_falls_back demo (txt "no.such.module")). reflexivity.
  - apply (nonexistent_source_falls_back demo (txt "plugin.py") (None, None));
      reflexivity.
Defined.

Lemma empty_page_is_failed_page_witness :
  process_target demo (txt "http://v/") (DefaultParsed_new demo)
    (DefaultRequests_new demo) false = Ok ∅.
Proof.
  apply (empty_page_is_failed_page demo (txt "http://v/") (DefaultParsed_new demo)
           (DefaultRequests_new demo) false).
  reflexivity.
Defined.

(** * Further properties of the code *)

(** ** The scan *)

Lemma group1_min_length w : lang group1 w → (3 ≤ length w)%nat.
Proof.
  intros [H|[H|H]].
  - apply lang_shape1 in H as (p & c & rest & -> & Hp & _ & Hne & _).
    destruct (prefixes_head p [] Hp) as (c1 & w1 & E & _).
    rewrite (right_id_L [] (++)) in E. subst p.
    destruct rest; [done|]. simpl. rewrite length_app. simpl. lia.
  - apply lang_shape2 in H as (a & b & e & r & -> & Ha & _ & Hb & _ & He & _).
    destruct (is_ext_letters e He) as [Hne _].
    destruct a, b, e; try done. rewrite !length_app. simpl.
    rewrite !length_app. simpl. lia.
  - apply lang_shape3 in H as (nm & ext & r & -> & Hnm & _ & Hext & _).
    destruct nm; [done|]. simpl. rewrite length_app. simpl.
    assert (Hn : [] ∉ extensions) by by_compute.
    destruct ext; [done|simpl; lia].
Qed.

Lemma group1_head w :
  lang group1 w →
  ∃ c w', w = c :: w' ∧ (c = ch "/" ∨ c = ch "." ∨ cset_has name c = true).
Proof.
  intros [H|[H|H]].
  - apply lang_shape1 in H as (p & c & rest & -> & Hp & _).
    destruct (prefixes_head p (c :: rest) Hp) as (c1 & w1 & E & Hc1).
    exists c1, w1. split; [done|]. destruct Hc1 as [-> | ->]; auto.
  - apply lang_shape2_head in H as (c & w' & -> & Hc). exists c, w'. split; [done|].
    assert (Hseg : cset_has seg c = (c =? ch "/") || cset_has name c).
    { unfold cset_has, seg, name. cbn [negate members existsb item_has xorb].
      rewrite !orb_false_r. by destruct (_ && _), (_ && _), (_ && _), (_ =? _), (_ =? _), (_ =? _). }
    rewrite Hseg in Hc. apply orb_true_iff in Hc as [Hc|Hc]; [|auto].
    left. by apply N.eqb_eq.
  - apply lang_shape3_head in H as (c & w' & -> & Hc). exists c, w'. auto.
Qed.

Lemma filter_quote_free (g : str) :
  Forall (λ c, ¬ is_quote c) g → filter is_quote g = [].
Proof.
  induction 1 as [|c g Hc _ IH]; [done|]. by rewrite filter_cons_False.
Qed.

Lemma match_at_length s g rest :
  match_at s = Some (g, rest) →
  length s = (length g + 2 + length rest)%nat ∧ (3 ≤ length g)%nat
  ∧ length (filter is_quote s) = (2 + length (filter is_quote rest))%nat.
Proof.
  intros H. apply match_at_inv in H as (q & q' & -> & Hq & Hq' & Hg).
  pose proof (group1_min_length _ Hg). pose proof (group1_quote_free _ Hg) as Hf.
  split_and!; [|done|].
  - simpl. rewrite length_app. simpl. lia.
  - rewrite filter_cons_True by done. rewrite filter_app, filter_quote_free by done.
    simpl. by rewrite filter_cons_True by done.
Qed.

Lemma match_at_rest s g rest :
  match_at s = Some (g, rest) → drop (length g + 2) s = rest.
Proof.
  intros H. apply match_at_inv in H as (q & q' & -> & _).
  replace (length g + 2)%nat with (S (length (g ++ [q']))).
  - change (q :: g ++ q' :: rest) with (q :: g ++ [q'] ++ rest).
    rewrite (assoc_L (++)). cbn [drop]. apply drop_app_length.
  - rewrite length_app. simpl. lia.
Qed.

Lemma match_at_skip c s g rest :
  match_at (c :: s) = Some (g, rest) →
  Nat.pred (length (c :: s) - length rest) = S (length g)
  ∧ drop (S (length g)) s = rest.
Proof.
  intros H. pose proof (match_at_length _ _ _ H) as (Hlen & _).
  apply match_at_rest in H. split; [lia|].
  by replace (length g + 2)%nat with (S (S (length g))) in H by lia.
Qed.

Lemma finditer_from_count skip pos s :
  (5 * length (finditer_from skip pos s) ≤ length (drop skip s))%nat
  ∧ (2 * length (finditer_from skip pos s) ≤ length (filter is_quote (drop skip s)))%nat.
Proof.
  revert skip pos. induction s as [|c s IH]; intros skip pos.
  - destruct skip; simpl; lia.
  - destruct skip as [|n]; [|apply IH]. cbn [finditer_from drop].
    destruct (match_at (c :: s)) as [[g rest]|] eqn:E.
    + pose proof (match_at_length _ _ _ E) as (Hlen & Hg & Hq).
      destruct (match_at_skip _ _ _ _ E) as [-> Hrest].
      destruct (IH (S (length g)) (S pos)) as [H5 H2]. rewrite Hrest in H5, H2.
      cbn [length]. rewrite Hq. simpl in Hlen. lia.
    + destruct (IH 0%nat (S pos)) as [H5 H2]. rewrite drop_0 in H5, H2.
      split; [simpl; lia|]. etrans; [exact H2|].
      destruct (decide (is_quote c)).
      * rewrite filter_cons_True by done. simpl. lia.
      * by rewrite filter_cons_False.
Qed.

Lemma finditer_from_ordered skip pos s :
  Forall (λ m, (pos + skip ≤ m_start m)%nat ∧ (m_start m < m_end m)%nat
               ∧ (m_end m ≤ pos + length s)%nat)
         (finditer_from skip pos s)
  ∧ StronglySorted (λ m1 m2, (m_end m1 ≤ m_start m2)%nat) (finditer_from skip pos s).
Proof.
  revert skip pos. induction s as [|c s IH]; intros skip pos.
  - simpl. split; constructor.
  - assert (Hnext : ∀ k, (skip ≤ S k)%nat →
      Forall (λ m, (pos + skip ≤ m_start m)%nat ∧ (m_start m < m_end m)%nat
                   ∧ (m_end m ≤ pos + length (c :: s))%nat)
             (finditer_from k (S pos) s)).
    { intros k Hk. destruct (IH k (S pos)) as [H _].
      eapply Forall_impl; [exact H|]. simpl. intros m. lia. }
    destruct skip as [|n]; cbn [finditer_from].
    { destruct (match_at (c :: s)) as [[g rest]|] eqn:E.
      - pose proof (match_at_length _ _ _ E) as (Hlen & Hg & _).
        destruct (match_at_skip _ _ _ _ E) as [Hsk _].
        destruct (IH (Nat.pred (length (c :: s) - length rest)) (S pos)) as [H1 H2].
        split.
        + constructor; [simpl in *; lia|]. apply Hnext. lia.
        + constructor; [done|]. eapply Forall_impl; [exact H1|].
          simpl. intros m. simpl in Hlen. lia.
      - split; [apply Hnext; lia|]. apply IH. }
    split; [apply Hnext; lia|]. apply IH.
Qed.

(** X1. Every match the scan reports is a literal of the text between two
    quote characters: the text is what precedes the match, a quote, group 1,
    a quote, and what follows the match; group 1 has one of the three shapes;
    and the match ends two characters after its group, inside the text. *)
Theorem matches_are_delimited_literals :
  ∀ (text : str) (m : Match),
    m ∈ finditer text →
    ∃ q q', is_quote q ∧ is_quote q'
            ∧ text = take (m_start m) text ++ q :: m_group1 m ++ q' :: drop (m_end m) text
            ∧ length (take (m_start m) text) = m_start m
            ∧ m_end m = (m_start m + length (m_group1 m) + 2)%nat
            ∧ (m_end m ≤ length text)%nat
            ∧ lang group1 (m_group1 m).
Proof.
  intros text m Hm.
  pose proof (proj1 (finditer_from_ordered 0 0 text)) as Hb.
  rewrite Forall_forall in Hb. destruct (Hb m Hm) as (_ & _ & Hend). simpl in Hend.
  apply finditer_from_sound in Hm as (i & rest & Hi & _ & Hat & He).
  simpl in Hi. subst i.
  pose proof (match_at_length _ _ _ Hat) as (Hlen & _ & _).
  pose proof (match_at_rest _ _ _ Hat) as Hrest.
  apply match_at_inv in Hat as (q & q' & Hs & Hq & Hq' & Hg).
  rewrite Hlen in He.
  replace (length (m_group1 m) + 2 + length rest - length rest)%nat
    with (length (m_group1 m) + 2)%nat in He by lia.
  rewrite drop_drop in Hrest.
  exists q, q'. split_and!; auto.
  - rewrite He, Hrest, <- Hs. by rewrite take_drop.
  - apply length_take_le. lia.
  - lia.
Qed.

(** X2. The matches of a scan come in text order and do not overlap: each
    one ends before or where the next one starts, and none is empty. *)
Theorem matches_do_not_overlap :
  ∀ text : str,
    StronglySorted (λ m1 m2, (m_end m1 ≤ m_start m2)%nat) (finditer text)
    ∧ Forall (λ m, (m_start m < m_end m)%nat) (finditer text).
Proof.
  intros text. destruct (finditer_from_ordered 0 0 text) as [H1 H2].
  split; [done|]. eapply Forall_impl; [exact H1|]. simpl. tauto.
Qed.

Lemma extract_member_shape js g :
  g ∈ extract_urls_from_js js → lang group1 g.
Proof.
  unfold extract_urls_from_js, scan. intros (m & -> & Hm)%list_elem_of_fmap.
  apply finditer_from_sound in Hm as (i & rest & _ & _ & Hat & _).
  by apply match_at_inv in Hat as (q & q' & _ & _ & _ & Hl).
Qed.

(** X3. Every candidate [extract_urls_from_js] returns has at least three
    characters, holds no quote character, and begins with a slash, a dot, a
    letter, a digit, an underscore or a dash. *)
Theorem candidates_are_well_formed :
  ∀ (js : bytes) (g : str),
    g ∈ extract_urls_from_js js →
    (3 ≤ length g)%nat
    ∧ Forall (λ c, ¬ is_quote c) g
    ∧ ∃ c g', g = c :: g' ∧ (c = ch "/" ∨ c = ch "." ∨ cset_has name c = true).
Proof.
  intros js g Hg. pose proof (extract_member_shape _ _ Hg) as Hl.
  split_and!.
  - by apply group1_min_length.
  - by apply group1_quote_free.
  - by apply group1_head.
Qed.

Lemma decode_length_le js : (length (decode_utf8_ignore js) ≤ length js)%nat.
Proof.
  assert (H : ∀ n js, (length js ≤ n)%nat →
                      (length (decode_utf8_ignore js) ≤ length js)%nat);
    [|by apply (H (length js))].
  clear js. intros n. induction n as [|n IH]; intros js Hn.
  - destruct js; [done|]. simpl in Hn. lia.
  - destruct js as [|b1 r1]; [done|]. cbn [decode_utf8_ignore].
    repeat case_match; subst; cbn [length] in *;
      try lia;
      repeat match goal with
      | |- context [decode_utf8_ignore ?t] =>
          let H := fresh in
          assert (H : (length (decode_utf8_ignore t) ≤ length t)%nat)
            by (apply IH; cbn [length] in *; lia);
          revert H; generalize (decode_utf8_ignore t); intros ? ?
      end; cbn [length] in *; lia.
Qed.

Lemma decode_app_ascii (a b : bytes) :
  Forall (λ x, Byte.to_N x < 128) a →
  decode_utf8_ignore (a ++ b) = (Byte.to_N <$> a) ++ decode_utf8_ignore b.
Proof.
  induction 1 as [|x a Hx _ IH]; [done|].
  cbn [app fmap list_fmap decode_utf8_ignore].
  apply N.ltb_lt in Hx. rewrite Hx. by rewrite IH.
Qed.

Lemma finditer_from_nil skip pos s :
  (length s ≤ skip)%nat → finditer_from skip pos s = [].
Proof.
  intros H. destruct (finditer_from_count skip pos s) as [H5 _].
  rewrite drop_ge in H5 by done. destruct (finditer_from skip pos s); [done|].
  simpl in H5. lia.
Qed.

Lemma finditer_from_few_quotes pos s :
  (length (filter is_quote s) ≤ 1)%nat → finditer_from 0 pos s = [].
Proof.
  intros H. destruct (finditer_from_count 0 pos s) as [_ H2].
  rewrite drop_0 in H2. destruct (finditer_from 0 pos s); [done|].
  simpl in H2. lia.
Qed.

(** X4. A scan cannot return more candidates than the script has room for:
    each candidate takes five characters of text and two quote characters of
    its own, and the decoded text is no longer than the bytes.  A script with
    fewer than two quote characters gives no candidate at all. *)
Theorem candidate_count_is_bounded :
  ∀ js : bytes,
    let text := decode_utf8_ignore js in
    (5 * length (extract_urls_from_js js) ≤ length text)%nat
    ∧ (length text ≤ length js)%nat
    ∧ (2 * length (extract_urls_from_js js) ≤ length (filter is_quote text))%nat
    ∧ ((length (filter is_quote text) ≤ 1)%nat → extract_urls_from_js js = []).
Proof.
  intros js text. unfold extract_urls_from_js, scan, finditer. fold text.
  rewrite length_fmap.
  destruct (finditer_from_count 0 0 text) as [H5 H2]. rewrite drop_0 in H5, H2.
  split_and!; auto.
  - apply decode_length_le.
  - intros H. by rewrite finditer_from_few_quotes.
Qed.

(** X5. A script that is one literal between two quote characters, with no
    quote character inside, gives that literal when it has one of the three
    shapes and nothing otherwise, whichever of the two quote characters opens
    it and whichever closes it: the delimiters need not agree. *)
Theorem lone_literal_scan :
  ∀ (q q' : N) (lit : str),
    is_quote q → is_quote q' → Forall (λ c, ¬ is_quote c) lit →
    scan (q :: lit ++ [q']) = if matches group1 lit then [lit] else [].
Proof.
  intros q q' lit Hq Hq' Hlit. unfold scan, finditer. cbn [finditer_from].
  rewrite match_at_quoted by done. destruct (matches group1 lit).
  - cbn [fmap list_fmap m_group1]. f_equal.
    rewrite finditer_from_nil; [done|].
    cbn [length]. rewrite !length_app. simpl. lia.
  - rewrite finditer_from_few_quotes; [done|].
    rewrite filter_app, filter_quote_free by done.
    rewrite filter_cons_True by done. done.
Qed.

Lemma name_not_dot c : cset_has name c = true → c ≠ ch ".".
Proof. by apply class_excludes. Qed.

(** X6. The extension allowlist is exact.  For a literal between two quote
    characters made of a file name of letters, digits, underscores and
    dashes, a dot, and a tail without quote characters (no earlier match
    running over the opening quote), the scan yields the literal exactly when
    the tail is a listed extension followed by nothing or by a remainder that
    begins with a question mark and holds no pipe: another extension, or a
    listed one in another case, gives no candidate. *)
Theorem filename_allowlist_is_exact :
  ∀ (js : bytes) (pre post : str) (q q' : N) (nm e : str),
    let lit := nm ++ ch "." :: e in
    let text := decode_utf8_ignore js in
    text = pre ++ q :: lit ++ q' :: post →
    is_quote q → is_quote q' →
    nm ≠ [] → all_in name nm → Forall (λ x, ¬ is_quote x) e →
    no_match_across text (length pre) →
    (yields text (length pre) lit
     ↔ ∃ ext r, e = ext ++ r ∧ ext ∈ extensions
                ∧ (r = [] ∨ ∃ r', r = ch "?" :: r' ∧ (ch "|" ∉ r'))).
Proof.
  intros js pre post q q' nm e lit text Htext Hq Hq' Hnm Hsn He Hno.
  rewrite Htext in *. rewrite yields_quoted; auto.
  2:{ unfold lit. apply Forall_app. split; [by apply (all_in_quote_free name)|].
      constructor; [by intros [?|?]|done]. }
  assert (Hnd : Forall (λ c, c ≠ ch ".") nm).
  { eapply Forall_impl; [exact Hsn|]. apply name_not_dot. }
  change (lang group1 lit) with (lang shape1 lit ∨ lang shape2 lit ∨ lang shape3 lit).
  split.
  - intros [H|[H|H]].
    + exfalso. apply lang_shape1 in H as (p & c & rest & E & Hp & _).
      destruct (prefixes_head p (c :: rest) Hp) as (c1 & w1 & E1 & Hc1).
      rewrite E1 in E. unfold lit in E. destruct Hsn as [|c0 nm Hc0 _]; [done|].
      injection E as <- _. by destruct Hc1 as [-> | ->].
    + exfalso.
      apply lang_shape2 in H as (a & b & e2 & r2 & E & _ & Hsa & _ & Hsb & _).
      unfold lit in E. rewrite (regroup a b) in E.
      apply (span_unique (λ c, c ≠ ch ".")) in E as [E _]; [|done| |simpl; tauto..].
      * apply (all_in_excludes name (ch "/") nm); [done|done|].
        rewrite E. apply elem_of_app. right. by left.
      * apply Forall_app. split; [|constructor; [done|]];
          (eapply Forall_impl; [eassumption|]); intros c; by apply class_excludes.
    + apply lang_shape3 in H as (nm2 & ext & r & E & _ & Hsn2 & Hext & Hr).
      unfold lit in E.
      apply (span_unique (λ c, c ≠ ch ".")) in E as [_ E]; [|done| |simpl; tauto..].
      2:{ eapply Forall_impl; [exact Hsn2|]. apply name_not_dot. }
      injection E as ->. exists ext, r. split_and!; auto.
      destruct Hr as [->|(r' & -> & Hr')]; [by left|right].
      exists r'. split; [done|]. rewrite Forall_forall in Hr'.
      intros Hin. apply (Hr' _ Hin). by_compute.
  - intros (ext & r & -> & Hext & Hr). right; right. apply lang_shape3.
    exists nm, ext, r. split_and!; auto.
    destruct Hr as [->|(r' & -> & Hpipe)]; [by left|right].
    exists r'. split; [done|].
    apply Forall_app in He as [_ He]. apply Forall_cons in He as [_ He].
    rewrite Forall_forall in He |- *. intros x Hx.
    unfold denied_tail. rewrite !elem_of_cons, elem_of_nil.
    intros [->|[->|[->|[]]]]; [|done|].
    + apply (He _ Hx). by left.
    + apply (He _ Hx). by right.
Qed.

Lemma match_at_not_quote c s : ¬ is_quote c → match_at (c :: s) = None.
Proof.
  intros Hc. destruct (match_at (c :: s)) as [[g rest]|] eqn:E; [|done].
  apply match_at_inv in E as (q & q' & [= -> _] & Hq & _). done.
Qed.

Lemma finditer_from_groups skip pos pos' s :
  m_group1 <$> finditer_from skip pos s = m_group1 <$> finditer_from skip pos' s.
Proof.
  revert skip pos pos'. induction s as [|c s IH]; intros skip pos pos'; [done|].
  destruct skip as [|n]; cbn [finditer_from]; [|apply IH].
  destruct (match_at (c :: s)) as [[g rest]|]; [|apply IH].
  cbn [fmap list_fmap m_group1]. f_equal. apply IH.
Qed.

(** X7. Text before the first quote character does not matter to the scan,
    and is never a candidate itself: a script gives the candidates of what
    is left of it when a prefix without quote characters is taken away. *)
Theorem unquoted_prefix_is_skipped :
  ∀ a b : str, Forall (λ c, ¬ is_quote c) a → scan (a ++ b) = scan b.
Proof.
  intros a b Ha. unfold scan, finditer. generalize 0%nat at 2 as pos.
  induction Ha as [|c a Hc _ IH]; intros pos.
  - apply finditer_from_groups.
  - cbn [app finditer_from]. rewrite match_at_not_quote by done. apply IH.
Qed.

(** X8. A stray byte that cannot start a UTF-8 sequence (0x80-0xC1 or
    0xF5-0xFF), met after an ASCII stretch of the script, is dropped by the
    decoding and changes nothing: the candidates are those of the script
    without that byte. *)
Theorem stray_byte_is_ignored :
  ∀ (a b : bytes) (x : byte),
    Forall (λ y, Byte.to_N y < 128) a →
    128 ≤ Byte.to_N x < 194 ∨ 245 ≤ Byte.to_N x →
    decode_utf8_ignore (a ++ x :: b) = decode_utf8_ignore (a ++ b)
    ∧ extract_urls_from_js (a ++ x :: b) = extract_urls_from_js (a ++ b).
Proof.
  intros a b x Ha Hx.
  assert (H : decode_utf8_ignore (a ++ x :: b) = decode_utf8_ignore (a ++ b)).
  { rewrite !decode_app_ascii by done. f_equal. cbn [decode_utf8_ignore].
    destruct (N.ltb_spec (Byte.to_N x) 128); [lia|].
    destruct (N.ltb_spec (Byte.to_N x) 194); [done|].
    destruct (N.ltb_spec (Byte.to_N x) 224); [lia|].
    destruct (N.ltb_spec (Byte.to_N x) 240); [lia|].
    destruct (N.ltb_spec (Byte.to_N x) 245); [lia|]. done. }
  split; [done|]. unfold extract_urls_from_js. by rewrite H.
Qed.

(** ** The Normalizer *)

Lemma str_lt_irrefl a : ¬ str_lt a a.
Proof. by intros [_ ?]. Qed.

Lemma str_lt_trans : Transitive str_lt.
Proof.
  intros a b c [Hab Hne] [Hbc Hne']. split; [by etrans|].
  intros ->. apply Hne. by apply (anti_symm str_le).
Qed.
#[global] Existing Instance str_lt_trans.

Lemma Sorted_lt_le (l : list str) : Sorted str_lt l → Sorted str_le l.
Proof.
  induction 1 as [|x l _ IH Hx]; constructor; [done|].
  destruct Hx as [|y l [Hxy _]]; by constructor.
Qed.

Lemma Sorted_lt_NoDup (l : list str) : Sorted str_lt l → NoDup l.
Proof.
  intros H. apply Sorted_StronglySorted in H; [|apply _].
  induction H as [|x l _ IH Hx]; constructor; [|done].
  intros Hin. rewrite Forall_forall in Hx. by apply (str_lt_irrefl x), Hx.
Qed.

Lemma length_clean paths : length (clean paths) = size (stripped_set paths).
Proof. by rewrite (clean_Permutation paths). Qed.

Lemma clean_ext (X Y : gset str) : stripped_set X = stripped_set Y → clean X = clean Y.
Proof. unfold clean. by intros ->. Qed.

(** X9. [clean] is the identity on exactly the lists in normal form: a list
    comes back unchanged from [clean] (as a set) if and only if it is strictly
    ascending and each member is non-empty and has no surrounding
    whitespace.  These lists are the possible outputs of [clean]. *)
Theorem clean_fixed_points :
  ∀ l : list str,
    clean (list_to_set l) = l
    ↔ Sorted str_lt l ∧ Forall (λ p, strip p = p ∧ p ≠ []) l.
Proof.
  intros l. split.
  - intros E. split.
    + rewrite <- E. apply Sorted_strict; [apply clean_Sorted|apply clean_NoDup].
    + apply Forall_forall. intros x Hx. rewrite <- E in Hx.
      apply elem_of_clean in Hx as (p & _ & <- & Hne). split; [apply strip_strip|done].
  - intros [Hs Hf]. rewrite Forall_forall in Hf.
    apply (Sorted_unique str_le); [apply clean_Sorted|by apply Sorted_lt_le|].
    rewrite (clean_Permutation _), stripped_set_fix.
    + apply elements_list_to_set. by apply Sorted_lt_NoDup.
    + intros x Hx. apply Hf. by apply elem_of_list_to_set in Hx.
Qed.

(** X10. Normalising a union once gives what normalising each part and then
    the two results together gives: the members of [clean (A ∪ B)] are those
    of [clean A] and of [clean B], and the list is the same. *)
Theorem clean_union :
  ∀ A B : gset str,
    (∀ x, x ∈ clean (A ∪ B) ↔ x ∈ clean A ∨ x ∈ clean B)
    ∧ clean (A ∪ B) = clean (list_to_set (clean A ++ clean B)).
Proof.
  intros A B.
  assert (Hmem : ∀ x, x ∈ clean (A ∪ B) ↔ x ∈ clean A ∨ x ∈ clean B).
  { intros x. rewrite !elem_of_clean. setoid_rewrite elem_of_union. split.
    - intros (p & [?|?] & ?); [left|right]; eauto.
    - intros [(p & ? & ?)|(p & ? & ?)]; exists p; auto. }
  split; [done|]. apply clean_ext. symmetry.
  rewrite stripped_set_fix.
  - apply set_eq. intros x.
    rewrite elem_of_list_to_set, elem_of_app, <- Hmem.
    by rewrite (clean_Permutation (A ∪ B)), elem_of_elements.
  - intros x Hx. apply elem_of_list_to_set, elem_of_app in Hx.
    rewrite !elem_of_clean in Hx.
    destruct Hx as [(p & _ & <- & ?)|(p & _ & <- & ?)]; split; auto using strip_strip.
Qed.

Lemma size_list_to_set_le (l : list str) :
  (size (list_to_set l : gset str) ≤ length l)%nat.
Proof.
  unfold size, set_size. simpl.
  apply submseteq_length, NoDup_submseteq; [apply NoDup_elements|].
  intros x. by rewrite elem_of_elements, elem_of_list_to_set.
Qed.

(** X11. [clean] returns at most as many strings as the set holds, and the
    empty list exactly when every member of the set is empty or whitespace
    only (the empty set included). *)
Theorem clean_size :
  ∀ paths : gset str,
    (length (clean paths) ≤ size paths)%nat
    ∧ (clean paths = [] ↔ ∀ p, p ∈ paths → strip p = []).
Proof.
  intros paths. split.
  - rewrite length_clean. unfold stripped_set, set_map.
    etrans; [|apply (subseteq_size (filter (λ p, truthy (strip p)) paths) paths)].
    + etrans; [apply size_list_to_set_le|]. by rewrite length_fmap.
    + intros x. rewrite elem_of_filter. tauto.
  - split.
    + intros E p Hp. destruct (strip p) as [|c s] eqn:Es; [done|].
      assert (H : c :: s ∈ clean paths).
      { apply elem_of_clean. exists p. by rewrite Es. }
      rewrite E in H. by apply elem_of_nil in H.
    + intros H. destruct (clean paths) as [|x l] eqn:E; [done|].
      assert (Hx : x ∈ clean paths) by (rewrite E; left).
      apply elem_of_clean in Hx as (p & Hp & <- & Hne). by rewrite (H p Hp) in Hne.
Qed.

(** ** The ExtensionLoader *)

Lemma load_custom_loaded w path m pn rn :
  loaded w path m →
  load_custom w (Some path) (pn, rn)
  = try_except
      (parsed ← (if given pn
                 then let parsed := getattr m pn (DefaultParsed w) in
                      _ ← dunder_name parsed; Ok parsed
                 else Ok (DefaultParsed w));
       req ← (if given rn
              then let req := getattr m rn (DefaultRequests w) in
                   _ ← dunder_name req; Ok req
              else Ok (DefaultRequests w));
       Ok (parsed, req))
      (λ e, Ok (DefaultParsed w, DefaultRequests w)).
Proof.
  intros [Hne Hl]. unfold load_custom. destruct path as [|c path]; [done|].
  cbn [fst snd]. by rewrite Hl.
Qed.

Lemma dunder_name_cases o :
  (∃ n, dunder_name o = Ok n) ∨ dunder_name o = Raise AttributeError.
Proof. destruct o as [| |[|]|[|]]; simpl; eauto. Qed.

Lemma resolve_returns w m pn rn :
  ∃ classes,
    try_except
      (parsed ← (if given pn
                 then let parsed := getattr m pn (DefaultParsed w) in
                      _ ← dunder_name parsed; Ok parsed
                 else Ok (DefaultParsed w));
       req ← (if given rn
              then let req := getattr m rn (DefaultRequests w) in
                   _ ← dunder_name req; Ok req
              else Ok (DefaultRequests w));
       Ok (parsed, req))
      (λ e, Ok (DefaultParsed w, DefaultRequests w)) = Ok classes.
Proof.
  destruct (given pn), (given rn); cbn zeta;
    repeat match goal with
    | |- context [dunder_name ?o] =>
        destruct (dunder_name_cases o) as [[? ->]| ->]
    end; cbn [mbind result_bind try_except is_Exception]; eauto.
Qed.

(** X12. [load_custom] lets no [Exception] out, whatever the source and the
    names: it returns a pair, or it passes on a [KeyboardInterrupt] or a
    [SystemExit] raised while the source was loaded. *)
Theorem load_custom_lets_no_Exception_out :
  ∀ (w : World) (path : option str) (names : option str * option str),
    (∃ classes, load_custom w path names = Ok classes)
    ∨ (∃ e, load_custom w path names = Raise e ∧ is_Exception e = false
            ∧ ∃ p, path = Some p
                   ∧ (exec_file w p = Raise e ∨ import_module w p = Raise e)).
Proof.
  intros w path [pn rn].
  destruct path as [[|c p]|]; [left; by eexists| |left; by eexists].
  destruct (if endswith (c :: p) (txt ".py") then exec_file w (c :: p)
            else import_module w (c :: p)) as [m|e] eqn:El.
  - left. rewrite (load_custom_loaded w (c :: p) m) by done. apply resolve_returns.
  - unfold load_custom. cbn [fst snd]. rewrite El.
    cbn [mbind result_bind try_except]. destruct (is_Exception e) eqn:Ex.
    + left. by eexists.
    + right. exists e. split_and!; [done..|]. exists (c :: p). split; [done|].
      destruct (endswith _ _); auto.
Qed.

Lemma load_custom_not_loaded w path names classes :
  load_custom w path names = Ok classes →
  classes = (DefaultParsed w, DefaultRequests w)
  ∨ ∃ p m, path = Some p ∧ loaded w p m.
Proof.
  destruct names as [pn rn]. unfold load_custom.
  destruct path as [[|c p]|]; [intros [= <-]; by left| |intros [= <-]; by left].
  cbn [fst snd].
  destruct (if endswith (c :: p) (txt ".py") then exec_file w (c :: p)
            else import_module w (c :: p)) as [m|e] eqn:El.
  - intros _. right. by exists (c :: p), m.
  - cbn [mbind result_bind try_except]. destruct (is_Exception e); [|done].
    intros [= <-]. by left.
Qed.

(** X13. Whatever [load_custom] returns for a role is the built-in class of
    that role or the attribute the loaded module has under the name asked for
    that role; for a role with no name asked it is the built-in class. *)
Theorem load_custom_provenance :
  ∀ (w : World) (path : option str) (pn rn : option str) (P R : pyobj),
    load_custom w path (pn, rn) = Ok (P, R) →
    (P = DefaultParsed w
     ∨ ∃ p m n, path = Some p ∧ loaded w p m ∧ pn = Some n ∧ attrs m n = Some P)
    ∧ (R = DefaultRequests w
       ∨ ∃ p m n, path = Some p ∧ loaded w p m ∧ rn = Some n ∧ attrs m n = Some R)
    ∧ (given pn = false → P = DefaultParsed w)
    ∧ (given rn = false → R = DefaultRequests w).
Proof.
  intros w path pn rn P R H.
  destruct (load_custom_not_loaded _ _ _ _ H) as [[= -> ->]|(p & m & -> & Hl)];
    [by split_and!; auto|].
  rewrite (load_custom_loaded w p m) in H by done.
  assert (Hget : ∀ (name : option str) (dflt o : pyobj),
            getattr m name dflt = o →
            o = dflt ∨ ∃ n, name = Some n ∧ attrs m n = Some o).
  { intros [n|] dflt o; simpl; [|auto].
    destruct (attrs m n) eqn:E; simpl; intros <-; eauto. }
  destruct (given pn) eqn:Gp, (given rn) eqn:Gr; cbn zeta in H;
    repeat match type of H with
    | context [dunder_name ?o] =>
        let Hd := fresh "Hd" in
        destruct (dunder_name_cases o) as [[? Hd]|Hd]; rewrite Hd in H
    end; cbn [mbind result_bind try_except is_Exception] in H;
    injection H as <- <-; split_and!; auto; try done.
  all: match goal with
       | Hg : (∀ name dflt o, getattr ?mm name dflt = o → _), Hld : loaded _ ?pp ?mm
         |- getattr ?mm ?name ?dflt = _ ∨ _ =>
           destruct (Hg name dflt _ eq_refl) as [->|(n & -> & ?)];
             [by left|right; by exists pp, mm, n]
       end.
Qed.

(** X14. When the source loads and has a class under the name asked for the
    parser role, and no name is asked for the fetcher role, [load_custom]
    returns that class with the built-in fetcher; and the other way round. *)
Theorem load_custom_one_role :
  ∀ (w : World) (path : str) (m : module) (n cn : str),
    loaded w path m → n ≠ [] →
    (∀ impl, attrs m n = Some (ParsedClass cn impl) →
       ∀ rn, given rn = false →
         load_custom w (Some path) (Some n, rn) = Ok (ParsedClass cn impl, DefaultRequests w))
    ∧ (∀ impl, attrs m n = Some (RequestsClass cn impl) →
         ∀ pn, given pn = false →
           load_custom w (Some path) (pn, Some n)
           = Ok (DefaultParsed w, RequestsClass cn impl)).
Proof.
  intros w path m n cn Hl Hn. destruct n as [|c n]; [done|].
  split; intros impl Ha other Ho; rewrite (load_custom_loaded w path m) by done;
    cbn [given]; rewrite Ho; cbn [getattr]; rewrite Ha; reflexivity.
Qed.

(** X15. One bad role costs the other one.  When the source loads and the
    attribute under the name asked for one role has no [__name__], both roles
    fall back to the built-in classes, also when the other role's class is
    there and well-formed. *)
Theorem load_custom_nameless_attribute :
  ∀ (w : World) (path : str) (m : module) (pn rn : option str) (n : str),
    loaded w path m → n ≠ [] → attrs m n = Some (OtherObject None) →
    pn = Some n ∨ rn = Some n →
    load_custom w (Some path) (pn, rn) = Ok (DefaultParsed w, DefaultRequests w).
Proof.
  intros w path m pn rn n Hl Hn Ha Hrole. destruct n as [|c n]; [done|].
  rewrite (load_custom_loaded w path m) by done.
  destruct Hrole as [-> | ->].
  - cbn [given getattr]. rewrite Ha. reflexivity.
  - destruct (given pn); cbn zeta; cbn [given getattr]; rewrite Ha; cbn [default].
    + destruct (dunder_name_cases (getattr m pn (DefaultParsed w))) as [[? ->]| ->];
        reflexivity.
    + reflexivity.
Qed.

(** ** The Orchestrator *)

Lemma collect_raises parsed_inst fs found e :
  Raise e ∈ fs → ∃ e', collect parsed_inst fs found = Raise e'.
Proof.
  revert found. induction fs as [|f fs IH]; intros found Hin.
  - by apply elem_of_nil in Hin.
  - apply elem_of_cons in Hin as [<-|Hin]; [by eexists|].
    destruct f as [[[|b js]|]|e0]; cbn [collect mbind result_bind]; eauto.
    destruct (ParsedInterface.extract_urls_from_js parsed_inst (b :: js)); eauto.
Qed.

Lemma collect_ok_inv parsed_inst fs found all :
  collect parsed_inst fs found = Ok all →
  (∀ f, f ∈ fs → ∃ o, f = Ok o)
  ∧ (∀ js, Ok (Some js) ∈ fs → js ≠ [] →
           ∃ urls, ParsedInterface.extract_urls_from_js parsed_inst js = Ok urls).
Proof.
  revert found. induction fs as [|f fs IH]; intros found H.
  - split; [intros f []%elem_of_nil|intros js []%elem_of_nil].
  - destruct f as [o|e]; [|done]. cbn [collect mbind result_bind] in H.
    assert (Hcases : ∃ found',
      collect parsed_inst fs found' = Ok all
      ∧ (∀ js, o = Some js → js ≠ [] →
           ∃ urls, ParsedInterface.extract_urls_from_js parsed_inst js = Ok urls)).
    { destruct o as [[|b js]|].
      - exists found. split; [done|]. intros js Hjs. by injection Hjs as <-.
      - destruct (ParsedInterface.extract_urls_from_js parsed_inst (b :: js))
          as [urls|] eqn:E; [|done].
        exists (found ∪ list_to_set urls). split; [done|].
        intros js' Hjs _. injection Hjs as <-. eauto.
      - exists found. split; [done|done]. }
    destruct Hcases as (found' & Hc & Ho). destruct (IH _ Hc) as [H1 H2]. split.
    + intros f [->|?]%elem_of_cons; eauto.
    + intros js [Hjs|?]%elem_of_cons ?; [|eauto].
      injection Hjs as <-. eauto.
Qed.

Lemma collect_Permutation parsed_inst fs fs' found all :
  fs ≡ₚ fs' →
  collect parsed_inst fs found = Ok all → collect parsed_inst fs' found = Ok all.
Proof.
  intros Hp H. destruct (collect_ok_inv _ _ _ _ H) as [H1 H2].
  destruct (collect_spec parsed_inst fs found H1 H2) as (a & Ha & Hxa).
  rewrite H in Ha. injection Ha as <-.
  destruct (collect_spec parsed_inst fs' found) as (b & Hb & Hxb).
  - intros f Hf. apply H1. by rewrite Hp.
  - intros js Hjs. apply H2. by rewrite Hp.
  - rewrite Hb. f_equal. apply set_eq. intros x. rewrite Hxa, Hxb.
    by setoid_rewrite Hp.
Qed.

(** X16. What one raising fetch does.  With a fetcher whose [get] raises for
    one of the scripts of a page (the built-in one never does for an
    [Exception], a substituted one may), or when resolving that script's
    reference raises, [process_target] returns no set: the exception of a
    fetch, or of a scan or a resolution before it, leaves [process_target],
    and the candidates of the other scripts are lost with it. *)
Theorem raising_fetch_aborts_target :
  ∀ (w : World) (url : str) (parsed_inst : ParsedInterface.t)
    (req_inst : RequestsInterface.t) (verify_ssl : bool)
    (html : bytes) (scripts : list str) (s : str) (e : exn),
    (∀ pool fs, as_completed w pool fs ≡ₚ fs) →
    RequestsInterface.get req_inst url verify_ssl = Ok (Some html) → html ≠ [] →
    ParsedInterface.extract_scripts parsed_inst html = Ok scripts →
    s ∈ scripts →
    urljoin w url s ≫= (λ js_url, RequestsInterface.get req_inst js_url verify_ssl)
    = Raise e →
    ∃ e', process_target w url parsed_inst req_inst verify_ssl = Raise e'.
Proof.
  intros w url parsed_inst req_inst verify_ssl html scripts s e Hp Hpage Hne Hscr Hs He.
  rewrite (process_target_fetched _ _ _ _ _ html) by done.
  rewrite Hscr. cbn [mbind result_bind].
  destruct (mapM (urljoin w url) scripts) as [full|e'] eqn:Hfull;
    cbn [mbind result_bind]; [|by eexists].
  apply (collect_raises _ _ _ e).
  apply (futures_elem_of w req_inst url verify_ssl scripts full); [done..|].
  exists s. by rewrite He.
Qed.

(** X17. The order in which the script fetches complete does not show in the
    result: in two worlds that differ in the completion order only,
    [process_target] returns the same set, or returns a set in neither. *)
Theorem completion_order_is_immaterial :
  ∀ (w : World) (order : ThreadPoolExecutor → list (result (option bytes))
                         → list (result (option bytes)))
    (url : str) (parsed_inst : ParsedInterface.t) (req_inst : RequestsInterface.t)
    (verify_ssl : bool) (found : gset str),
    (∀ pool fs, as_completed w pool fs ≡ₚ fs) →
    (∀ pool fs, order pool fs ≡ₚ fs) →
    process_target w url parsed_inst req_inst verify_ssl = Ok found
    ↔ process_target (with_as_completed order w) url parsed_inst req_inst verify_ssl
      = Ok found.
Proof.
  intros w order url parsed_inst req_inst verify_ssl found Hw Ho.
  unfold process_target. cbn [with_as_completed urljoin as_completed].
  destruct (RequestsInterface.get req_inst url verify_ssl) as [[[|b html]|]|e];
    cbn [mbind result_bind]; [done| |done|done].
  destruct (ParsedInterface.extract_scripts parsed_inst (b :: html)) as [scripts|e];
    cbn [mbind result_bind]; [|done].
  destruct (mapM (urljoin w url) scripts) as [full|e]; cbn [mbind result_bind]; [|done].
  split; apply collect_Permutation.
  - by rewrite Hw, Ho.
  - by rewrite Hw, Ho.
Qed.

(** X25. A reference that cannot be resolved costs the whole page.  When
    [urljoin] raises for one script reference of a page (and returned for the
    references before it), [process_target] ends with that very exception, for
    every fetcher and whatever the completion order: the references are all
    resolved before the first script is fetched, so no script of the page is
    fetched and none of its candidates is returned. *)
Theorem unresolvable_reference_aborts_target :
  ∀ (w : World) (url : str) (parsed_inst : ParsedInterface.t)
    (req_inst : RequestsInterface.t) (verify_ssl : bool)
    (html : bytes) (before after : list str) (s : str) (e : exn),
    RequestsInterface.get req_inst url verify_ssl = Ok (Some html) → html ≠ [] →
    ParsedInterface.extract_scripts parsed_inst html = Ok (before ++ s :: after) →
    (∀ s', s' ∈ before → ∃ js_url, urljoin w url s' = Ok js_url) →
    urljoin w url s = Raise e →
    process_target w url parsed_inst req_inst verify_ssl = Raise e.
Proof.
  intros w url parsed_inst req_inst verify_ssl html before after s e Hpage Hne Hscr Hb He.
  rewrite (process_target_fetched _ _ _ _ _ html) by done.
  rewrite Hscr. cbn [mbind result_bind].
  by rewrite (mapM_raises (urljoin w url) before s after e).
Qed.

Lemma default_get_returns w timeout url verify_ssl :
  raises_only_Exceptions w → ∃ o, DefaultRequests_get w timeout url verify_ssl = Ok o.
Proof.
  intros [Hr _]. unfold DefaultRequests_get.
  destruct (session_get w url timeout verify_ssl) as [resp|e] eqn:E.
  - cbn [mbind result_bind]. unfold raise_for_status.
    destruct (_ && _); cbn [mbind result_bind try_except is_Exception]; eauto.
  - cbn [mbind result_bind try_except]. rewrite (Hr _ _ _ _ E). eauto.
Qed.

Lemma default_extract_scripts_returns w html :
  raises_only_Exceptions w →
  ∃ scripts, DefaultParsed_extract_scripts w html = Ok scripts
             ∧ (scripts = [] ∨ script_srcs w html = Ok scripts).
Proof.
  intros [_ Hr]. unfold DefaultParsed_extract_scripts.
  destruct (script_srcs w html) as [l|e] eqn:E; cbn [try_except]; [eauto|].
  rewrite (Hr _ _ E). eauto.
Qed.

Lemma builtin_target_cases :
  ∀ (w : World) (url : str) (verify_ssl : bool),
    raises_only_Exceptions w →
    (∀ pool fs, as_completed w pool fs ≡ₚ fs) →
    let run :=
      process_target w url (DefaultParsed_new w) (DefaultRequests_new w) verify_ssl in
    (∃ found, run = Ok found
              ∧ ∀ x, x ∈ found → (3 ≤ length x)%nat ∧ Forall (λ c, ¬ is_quote c) x)
    ∨ (∃ e html scripts s,
         DefaultRequests_get w DEFAULT_TIMEOUT url verify_ssl = Ok (Some html)
         ∧ script_srcs w html = Ok scripts ∧ s ∈ scripts
         ∧ urljoin w url s = Raise e ∧ run = Raise e).
Proof.
  intros w url verify_ssl Hw Hp run. unfold run.
  destruct (default_get_returns w DEFAULT_TIMEOUT url verify_ssl Hw) as [o Ho].
  assert (Hempty : o = None ∨ o = Some [] →
    ∃ found,
      process_target w url (DefaultParsed_new w) (DefaultRequests_new w) verify_ssl
      = Ok found
      ∧ ∀ x, x ∈ found → (3 ≤ length x)%nat ∧ Forall (λ c, ¬ is_quote c) x).
  { intros Hn. exists ∅. split; [|by intros x ?%elem_of_empty].
    unfold process_target. cbn [DefaultRequests_new RequestsInterface.get].
    rewrite Ho. by destruct Hn as [-> | ->]. }
  destruct o as [[|b html]|]; [left; by apply Hempty; right| |left; by apply Hempty; left].
  rewrite (process_target_fetched _ _ _ _ _ (b :: html)) by done.
  destruct (default_extract_scripts_returns w (b :: html) Hw) as (scripts & Hs & Hsrc).
  cbn [DefaultParsed_new ParsedInterface.extract_scripts]. rewrite Hs.
  cbn [mbind result_bind].
  destruct (mapM (urljoin w url) scripts) as [full|e] eqn:Hfull; cbn [mbind result_bind].
  - left.
    edestruct (collect_spec (DefaultParsed_new w)) as (found & Hc & Hx);
      [| |exists found; split; [exact Hc|]].
    + intros f (s & Hin & ->)%(futures_elem_of w (DefaultRequests_new w) url verify_ssl
                                 scripts full); [|done..].
      destruct (mapM_Ok_elem _ _ _ s Hfull Hin) as [j ->]. cbn [mbind result_bind].
      by apply default_get_returns.
    + intros js _ _. by eexists.
    + intros x [[]%elem_of_empty|(js & urls & _ & _ & [= <-] & Hin)]%Hx.
      apply extract_member_shape in Hin. split.
      * by apply group1_min_length.
      * by apply group1_quote_free.
  - right. apply mapM_raises_inv in Hfull as (s & Hin & He).
    exists e, (b :: html), scripts, s. split_and!; auto.
    destruct Hsrc as [-> |]; [|done]. by apply elem_of_nil in Hin.
Qed.

Lemma builtin_target_returns :
  ∀ (w : World) (url : str) (verify_ssl : bool),
    raises_only_Exceptions w →
    (∀ pool fs, as_completed w pool fs ≡ₚ fs) →
    (∀ html scripts s,
       DefaultRequests_get w DEFAULT_TIMEOUT url verify_ssl = Ok (Some html) →
       script_srcs w html = Ok scripts → s ∈ scripts →
       ∃ js_url, urljoin w url s = Ok js_url) →
    ∃ found,
      process_target w url (DefaultParsed_new w) (DefaultRequests_new w) verify_ssl
      = Ok found
      ∧ ∀ x, x ∈ found → (3 ≤ length x)%nat ∧ Forall (λ c, ¬ is_quote c) x.
Proof.
  intros w url verify_ssl Hw Hp Hjoin.
  destruct (builtin_target_cases w url verify_ssl Hw Hp)
    as [H|(e & html & scripts & s & Hget & Hsrc & Hs & He & _)]; [done|].
  destruct (Hjoin html scripts s Hget Hsrc Hs) as [j Hj]. by rewrite He in Hj.
Qed.

(** X18. With the built-in fetcher and parser, in a world whose HTTP session
    and markup parser raise nothing but [Exception]s, one thing only can make
    [process_target] raise: [urljoin] raising on a script reference of the
    fetched page, and then [process_target] ends with that exception.  No
    failed request, bad status or unparsable page makes it raise.  Otherwise,
    so whenever [urljoin] returns for the references of the page, it returns
    a set, and every member of the set has at least three characters and no
    quote character. *)
Theorem builtin_target_fails_only_in_urljoin :
  ∀ (w : World) (url : str) (verify_ssl : bool),
    raises_only_Exceptions w →
    (∀ pool fs, as_completed w pool fs ≡ₚ fs) →
    let run :=
      process_target w url (DefaultParsed_new w) (DefaultRequests_new w) verify_ssl in
    let well_formed (found : gset str) :=
      ∀ x, x ∈ found → (3 ≤ length x)%nat ∧ Forall (λ c, ¬ is_quote c) x in
    ((∃ found, run = Ok found ∧ well_formed found)
     ∨ (∃ e html scripts s,
          DefaultRequests_get w DEFAULT_TIMEOUT url verify_ssl = Ok (Some html)
          ∧ script_srcs w html = Ok scripts ∧ s ∈ scripts
          ∧ urljoin w url s = Raise e ∧ run = Raise e))
    ∧ ((∀ html scripts s,
          DefaultRequests_get w DEFAULT_TIMEOUT url verify_ssl = Ok (Some html) →
          script_srcs w html = Ok scripts → s ∈ scripts →
          ∃ js_url, urljoin w url s = Ok js_url) →
       ∃ found, run = Ok found ∧ well_formed found).
Proof.
  intros w url verify_ssl Hw Hp run well_formed. split.
  - by apply builtin_target_cases.
  - by apply builtin_target_returns.
Qed.

(** X19. A page without script references gives the empty set, and for the
    built-in parser a page whose markup cannot be parsed is such a page: when
    the markup parser finds no [script] tag with a [src], or raises an
    [Exception], [process_target] returns the empty set and fetches
    nothing more. *)
Theorem page_without_scripts :
  ∀ (w : World) (url : str) (req_inst : RequestsInterface.t) (verify_ssl : bool)
    (html : bytes),
    (∀ pool fs, as_completed w pool fs ≡ₚ fs) →
    RequestsInterface.get req_inst url verify_ssl = Ok (Some html) → html ≠ [] →
    script_srcs w html = Ok []
    ∨ (∃ e, script_srcs w html = Raise e ∧ is_Exception e = true) →
    ParsedInterface.extract_scripts (DefaultParsed_new w) html = Ok []
    ∧ process_target w url (DefaultParsed_new w) req_inst verify_ssl = Ok ∅.
Proof.
  intros w url req_inst verify_ssl html Hp Hpage Hne Hsrc.
  assert (Hs : ParsedInterface.extract_scripts (DefaultParsed_new w) html = Ok []).
  { cbn [DefaultParsed_new ParsedInterface.extract_scripts].
    unfold DefaultParsed_extract_scripts.
    destruct Hsrc as [-> |(e & -> & He)]; cbn [try_except]; [done|by rewrite He]. }
  split; [done|]. rewrite (process_target_fetched _ _ _ _ _ html) by done.
  rewrite Hs. cbn [mbind result_bind mapM mret result_ret fmap list_fmap].
  by rewrite (proj1 (Permutation_nil_r _) (Hp _ [])).
Qed.

(** ** The driver *)

Lemma process_all_spec w urls parsed_inst req_inst verify_ssl acc :
  (∀ u, u ∈ urls → ∃ S, process_target w u parsed_inst req_inst verify_ssl = Ok S) →
  ∃ all, process_all w urls parsed_inst req_inst verify_ssl acc = Ok all
    ∧ ∀ x, x ∈ all ↔
           x ∈ acc
           ∨ ∃ u S, u ∈ urls
                    ∧ process_target w u parsed_inst req_inst verify_ssl = Ok S
                    ∧ x ∈ S.
Proof.
  revert acc. induction urls as [|u urls IH]; intros acc H.
  - exists acc. split; [done|]. intros x. split; [auto|].
    intros [?|(u & S & []%elem_of_nil & _)]; done.
  - destruct (H u) as [S HS]; [by left|].
    destruct (IH (acc ∪ S)) as (all & Hall & Hx); [intros; apply H; by right|].
    exists all. split; [cbn [process_all]; rewrite HS; exact Hall|].
    intros x. rewrite Hx, elem_of_union. split.
    + intros [[?|?]|(u' & S' & ? & ?)]; [by left|right..].
      * exists u, S. split; [by left|done].
      * exists u', S'. split; [by right|done].
    + intros [?|(u' & S' & [->|?]%elem_of_cons & HS' & ?)]; [by left; left| |].
      * rewrite HS in HS'. injection HS' as <-. by left; right.
      * right. by exists u', S'.
Qed.

Lemma process_all_raises w urls1 u urls2 parsed_inst req_inst verify_ssl acc e :
  (∀ u', u' ∈ urls1 → ∃ S, process_target w u' parsed_inst req_inst verify_ssl = Ok S) →
  process_target w u parsed_inst req_inst verify_ssl = Raise e →
  process_all w (urls1 ++ u :: urls2) parsed_inst req_inst verify_ssl acc = Raise e.
Proof.
  revert acc. induction urls1 as [|u1 urls1 IH]; intros acc H He.
  - cbn [app process_all]. by rewrite He.
  - destruct (H u1) as [S HS]; [by left|]. cbn [app process_all]. rewrite HS.
    cbn [mbind result_bind]. apply IH; [|done]. intros; apply H; by right.
Qed.

(** X20. The loop of [main] over the targets accumulates by union: when
    [process_target] returns a set for each target, what the loop hands to
    [clean] holds exactly the members of these sets, whatever the order and
    repetition of the targets.  And it stops at the first target for which
    [process_target] raises: the exception leaves the loop, the later targets
    are not processed. *)
Theorem targets_are_united :
  ∀ (w : World) (parsed_inst : ParsedInterface.t) (req_inst : RequestsInterface.t)
    (verify_ssl : bool),
    let run u := process_target w u parsed_inst req_inst verify_ssl in
    (∀ urls,
       (∀ u, u ∈ urls → ∃ S, run u = Ok S) →
       ∃ all, process_all w urls parsed_inst req_inst verify_ssl ∅ = Ok all
              ∧ ∀ x, x ∈ all ↔ ∃ u S, u ∈ urls ∧ run u = Ok S ∧ x ∈ S)
    ∧ (∀ urls1 u urls2 e,
         (∀ u', u' ∈ urls1 → ∃ S, run u' = Ok S) → run u = Raise e →
         process_all w (urls1 ++ u :: urls2) parsed_inst req_inst verify_ssl ∅ = Raise e).
Proof.
  intros w parsed_inst req_inst verify_ssl run. split.
  - intros urls H.
    destruct (process_all_spec w urls parsed_inst req_inst verify_ssl ∅ H)
      as (all & Hall & Hx).
    exists all. split; [done|]. intros x. rewrite Hx. split; [|auto].
    by intros [[]%elem_of_empty|?].
  - intros urls1 u urls2 e H He. by apply process_all_raises.
Qed.

Lemma load_custom_not_given w cm names :
  given cm = false → load_custom w cm names = Ok (DefaultParsed w, DefaultRequests w).
Proof. destruct names. by destruct cm as [[|c p]|]. Qed.

Lemma main_builtin w args :
  given (custom_module args) = false →
  main w args
  = if negb (given (url args)) && negb (given (file args)) then parser_error
    else from_file ← file_targets w (file args);
         let urls := from_file ++ url_target (url args) in
         match urls with
         | [] => parser_error
         | _ => all_urls ← process_all w urls (DefaultParsed_new w)
                              (DefaultRequests_new w) (ssl args) ∅;
                _ ← save w (output args) (clean all_urls);
                Ok (clean all_urls)
         end.
Proof.
  intros Hcm. unfold main. rewrite Hcm, load_custom_not_given by done.
  cbn [andb]. destruct (negb _ && negb _); [done|].
  destruct (file_targets w (file args)) as [from_file|e]; [|done].
  cbn [mbind result_bind]. destruct (from_file ++ url_target (url args)); [done|].
  cbn [DefaultParsed DefaultRequests fst snd new_parsed new_requests instantiate
       mbind result_bind].
  by destruct (process_all _ _ _ _ _ _).
Qed.

(** X21. Without a substitution source, whatever [main] prints is in normal
    form: the list is strictly ascending (so it has no duplicate), and each
    line is non-empty and has no surrounding whitespace. *)
Theorem main_prints_normal_form :
  ∀ (w : World) (args : Args) (printed : list str),
    given (custom_module args) = false →
    main w args = Ok printed →
    Sorted str_lt printed ∧ Forall (λ p, strip p = p ∧ p ≠ []) printed.
Proof.
  intros w args printed Hcm H. rewrite main_builtin in H by done.
  assert (∃ S, printed = clean S) as [S ->].
  { destruct (negb _ && negb _); [done|].
    destruct (file_targets w (file args)) as [from_file|e]; [|done].
    cbn [mbind result_bind] in H.
    destruct (from_file ++ url_target (url args)); [done|].
    destruct (process_all _ _ _ _ _ _) as [all|e]; [|done].
    cbn [mbind result_bind] in H.
    destruct (save w (output args) (clean all)); [|done].
    cbn [mbind result_bind] in H. injection H as <-. by exists all. }
  split.
  - apply Sorted_strict; [apply clean_Sorted|apply clean_NoDup].
  - apply Forall_forall. intros x (p & _ & <- & Hne)%elem_of_clean.
    split; [apply strip_strip|done].
Qed.

Lemma main_single_url w args u :
  url args = Some u → u ≠ [] →
  given (file args) = false → given (custom_module args) = false →
  main w args
  = found ← process_target w u (DefaultParsed_new w) (DefaultRequests_new w) (ssl args);
    _ ← save w (output args) (clean found);
    Ok (clean found).
Proof.
  intros Hu Hne Hf Hcm. rewrite main_builtin by done. rewrite Hu, Hf.
  destruct u as [|c u]; [done|]. cbn [given negb andb].
  assert (file_targets w (file args) = Ok []) as ->.
  { by destruct (file args) as [[|]|]. }
  cbn [mbind result_bind app url_target process_all].
  destruct (process_target _ _ _ _ _) as [found|e]; [|done].
  cbn [mbind result_bind]. by rewrite (left_id_L ∅ (∪)).
Qed.

(** X22. A run on one URL with the built-in classes: with [-u] alone (no
    file, no substitution source), [main] is [process_target] on the URL,
    then [clean], then the append to the output file.  What [process_target]
    raises leaves [main]; when it returns, [main] prints [clean] of the set,
    and ends as the append ends.  So in a world whose HTTP session and markup
    parser raise nothing but [Exception]s, when [urljoin] returns for the
    script references of the page and the output file, if one is named, can
    be written, [main] comes to its end and has printed [clean] of the set
    [process_target] returns for the URL. *)
Theorem main_single_url_returns :
  ∀ (w : World) (args : Args) (u : str),
    raises_only_Exceptions w →
    (∀ pool fs, as_completed w pool fs ≡ₚ fs) →
    url args = Some u → u ≠ [] →
    given (file args) = false → given (custom_module args) = false →
    let run :=
      process_target w u (DefaultParsed_new w) (DefaultRequests_new w) (ssl args) in
    (∀ e, run = Raise e → main w args = Raise e)
    ∧ (∀ found, run = Ok found →
         main w args = (_ ← save w (output args) (clean found); Ok (clean found)))
    ∧ ((∀ html scripts s,
          DefaultRequests_get w DEFAULT_TIMEOUT u (ssl args) = Ok (Some html) →
          script_srcs w html = Ok scripts → s ∈ scripts →
          ∃ js_url, urljoin w u s = Ok js_url) →
       (∀ cleaned, save w (output args) cleaned = Ok ()) →
       ∃ found, run = Ok found ∧ main w args = Ok (clean found)).
Proof.
  intros w args u Hw Hp Hu Hne Hf Hcm run.
  rewrite (main_single_url w args u) by done. fold run. split_and!.
  - by intros e ->.
  - by intros found ->.
  - intros Hjoin Hsave.
    destruct (builtin_target_returns w u (ssl args) Hw Hp Hjoin) as (found & Hfound & _).
    exists found. split; [done|]. fold run in Hfound. rewrite Hfound.
    cbn [mbind result_bind]. by rewrite Hsave.
Qed.

Lemma main_save w args :
  main w args
  = cleaned ← main w (with_output None args);
    _ ← save w (output args) cleaned;
    Ok cleaned.
Proof.
  unfold main.
  cbn [with_output url file custom_module parsed_name request_name ssl output save].
  destruct (negb _ && negb _); [done|].
  destruct (_ && negb _); [done|].
  destruct (file_targets w (file args)) as [from_file|e]; [|done].
  cbn [mbind result_bind]. destruct (from_file ++ url_target (url args)); [done|].
  destruct (load_custom _ _ _) as [classes|e]; [|done]. cbn [mbind result_bind].
  destruct (new_parsed _) as [parsed_inst|e]; [|done]. cbn [mbind result_bind].
  destruct (new_requests _) as [req_inst|e]; [|done]. cbn [mbind result_bind].
  destruct (process_all _ _ _ _ _ _) as [all_urls|e]; [|done]. cbn [mbind result_bind].
  by destruct (ParsedInterface.clean parsed_inst all_urls) as [cleaned|e].
Qed.

(** X26. The output file.  [-o] changes nothing of what a run fetches and
    prints: a run with [-o] that comes to its end has printed what the run
    without [-o] prints, and has appended to the file each printed string
    followed by a newline, in the printed order.  But the append stands after
    the printing and nothing handles what it raises: when the file cannot be
    written, a run that would have ended well ends with the exception of the
    append. *)
Theorem output_file_gets_printed_list :
  ∀ (w : World) (args : Args),
    let plain := main w (with_output None args) in
    (∀ printed, main w args = Ok printed →
       plain = Ok printed
       ∧ ∀ o, output args = Some o → o ≠ [] →
              append_lines w o ((λ url, url ++ [10]) <$> printed) = Ok ())
    ∧ (∀ e, plain = Raise e → main w args = Raise e)
    ∧ (∀ printed o e,
         plain = Ok printed → output args = Some o → o ≠ [] →
         append_lines w o ((λ url, url ++ [10]) <$> printed) = Raise e →
         main w args = Raise e)
    ∧ (given (output args) = false → main w args = plain).
Proof.
  intros w args plain. rewrite (main_save w args). fold plain. split_and!.
  - intros printed H. destruct plain as [cleaned|e]; [|done].
    cbn [mbind result_bind] in H.
    destruct (save w (output args) cleaned) as [[]|e] eqn:Hsave; [|done].
    cbn [mbind result_bind] in H. injection H as <-. split; [done|].
    intros o Ho Hne. rewrite Ho in Hsave. by destruct o.
  - by intros e ->.
  - intros printed o e -> Ho Hne He. cbn [mbind result_bind]. rewrite Ho.
    destruct o as [|c o]; [done|]. cbn [save]. by rewrite He.
  - intros Ho. destruct plain as [cleaned|e]; [|done]. cbn [mbind result_bind].
    assert (save w (output args) cleaned = Ok ()) as ->; [|done].
    by destruct (output args) as [[|]|].
Qed.

(** X27. A substitute that cannot do its role ends the run, and late.
    [load_custom] accepts any attribute that has a [__name__], and [main]
    calls it unchecked.  When the attribute asked for the parser role cannot
    be called (a module of the source, for one), the run ends with
    [TypeError] when [main] instantiates it.  When it is a class of the other
    role, a fetcher, the instantiation passes and the run ends with
    [AttributeError] at the first parser method it calls: [extract_scripts]
    when the page arrived, [clean] when it did not. *)
Theorem unusable_substitute_ends_run :
  ∀ (w : World) (args : Args) (path : str) (m : module) (n u : str),
    loaded w path m → custom_module args = Some path →
    parsed_name args = Some n → n ≠ [] → given (request_name args) = false →
    url args = Some u → u ≠ [] → given (file args) = false →
    (∀ name, attrs m n = Some (OtherObject (Some name)) → main w args = Raise TypeError)
    ∧ (∀ cn impl, attrs m n = Some (RequestsClass cn impl) →
         raises_only_Exceptions w → main w args = Raise AttributeError).
Proof.
  intros w args path m n u Hl Hcm Hpn Hn Hrn Hu Hne Hf.
  assert (Hstart : ∀ o, attrs m n = Some o → (∃ nm, dunder_name o = Ok nm) →
    main w args
    = parsed_inst ← new_parsed o;
      req_inst ← new_requests (DefaultRequests w);
      all_urls ← process_all w [u] parsed_inst req_inst (ssl args) ∅;
      cleaned ← ParsedInterface.clean parsed_inst all_urls;
      _ ← save w (output args) cleaned;
      Ok cleaned).
  { intros o Ha [nm Hnm]. unfold main.
    rewrite Hcm, Hpn, Hu, Hf, Hrn, (load_custom_loaded w path m) by done.
    destruct Hl as [Hpath _].
    destruct path as [|? ?]; [done|]. destruct n as [|? ?]; [done|].
    destruct u as [|? ?]; [done|]. cbn [given negb andb orb].
    assert (file_targets w (file args) = Ok []) as ->.
    { by destruct (file args) as [[|]|]. }
    cbn [mbind result_bind app url_target getattr]. rewrite Ha. unfold default, id.
    cbn [from_option]. rewrite Hnm, Hrn. reflexivity. }
  split.
  - intros name Ha. rewrite (Hstart _ Ha) by (by eexists). reflexivity.
  - intros cn impl Ha Hw. rewrite (Hstart _ Ha) by (by eexists).
    cbn [new_parsed new_requests instantiate DefaultRequests mbind result_bind fst snd
         process_all].
    unfold process_target. cbn [DefaultRequests_new RequestsInterface.get].
    destruct (default_get_returns w DEFAULT_TIMEOUT u (ssl args) Hw) as [o ->].
    by destruct o as [[|b html]|].
Qed.

(** X23. The two argument checks of [main] end the run with exit status 2
    before anything is fetched, read or loaded: in every world, when neither a
    URL nor a file is given, and when a substitution source is given with
    neither role name. *)
Theorem usage_errors_exit :
  ∀ (w : World) (args : Args),
    (given (url args) = false ∧ given (file args) = false)
    ∨ (given (custom_module args) = true
       ∧ given (parsed_name args) = false ∧ given (request_name args) = false) →
    main w args = Raise (SystemExit 2).
Proof.
  intros w args [[Hu Hf]|(Hcm & Hpn & Hrn)]; unfold main.
  - by rewrite Hu, Hf.
  - rewrite Hcm, Hpn, Hrn. by destruct (negb _ && negb _).
Qed.

(** X24. The targets file.  When the file cannot be read, the exception of
    the read leaves [main] as it is: it is not turned into a usage error, and
    nothing is fetched.  When the file is read and every line of it is blank,
    and no URL is given, [main] ends with exit status 2. *)
Theorem targets_file_edge_cases :
  ∀ (w : World) (args : Args) (f : str),
    file args = Some f → f ≠ [] →
    (given (custom_module args) = true →
     given (parsed_name args) || given (request_name args) = true) →
    (∀ e, read_lines w f = Raise e → main w args = Raise e)
    ∧ (∀ ls, read_lines w f = Ok ls → Forall (λ l, strip l = []) ls →
             given (url args) = false → main w args = Raise (SystemExit 2)).
Proof.
  intros w args f Hf Hne Hnames. destruct f as [|c f]; [done|].
  assert (Hchk : given (custom_module args)
                 && negb (given (parsed_name args) || given (request_name args))
                 = false).
  { destruct (given (custom_module args)); [|done]. by rewrite Hnames. }
  split.
  - intros e He. unfold main. rewrite Hf, Hchk. cbn [given negb].
    rewrite andb_false_r. cbn [file_targets]. by rewrite He.
  - intros ls Hls Hblank Hu. unfold main. rewrite Hf, Hchk, Hu.
    cbn [given negb andb file_targets]. rewrite Hls.
    change (Ok ls ≫= _) with
      (Ok (A:=list str) (strip <$> filter (λ l, truthy (strip l)) ls)).
    assert (filter (λ l, truthy (strip l)) ls = []) as ->.
    { clear Hls. induction Hblank as [|l ls Hl _ IH]; [done|].
      rewrite filter_cons_False; [exact IH|]. unfold truthy. rewrite Hl. by intros ?. }
    cbn [mbind result_bind fmap list_fmap app].
    assert (url_target (url args) = []) as ->; [|done].
    by destruct (url args) as [[|]|].
Qed.

(** ** The further properties at concrete inputs *)

Lemma demo_raises_only_Exceptions : raises_only_Exceptions demo.
Proof.
  split.
  - intros url timeout verify e. cbn [demo session_get]. unfold demo_session_get.
    repeat case_match; by intros [= <-].
  - intros html e. cbn [demo script_srcs]. unfold demo_script_srcs.
    repeat case_match; done.
Qed.

Lemma matches_are_delimited_literals_witness :
  ∃ q q', is_quote q ∧ is_quote q'
          ∧ txt "x='/api/v1';" = take 2 (txt "x='/api/v1';") ++ q :: txt "/api/v1"
                                 ++ q' :: drop 11 (txt "x='/api/v1';")
          ∧ length (take 2 (txt "x='/api/v1';")) = 2%nat
          ∧ 11%nat = (2 + length (txt "/api/v1") + 2)%nat
          ∧ (11 ≤ length (txt "x='/api/v1';"))%nat
          ∧ lang group1 (txt "/api/v1").
Proof.
  apply (matches_are_delimited_literals (txt "x='/api/v1';")
           (MkMatch 2 11 (txt "/api/v1"))).
  vm_compute. left.
Defined.

Lemma candidates_are_well_formed_witness :
  (3 ≤ length (txt "/api/v1"))%nat
  ∧ Forall (λ c, ¬ is_quote c) (txt "/api/v1")
  ∧ ∃ c g', txt "/api/v1" = c :: g'
            ∧ (c = ch "/" ∨ c = ch "." ∨ cset_has name c = true).
Proof.
  apply (candidates_are_well_formed (raw "x='/api/v1';")). vm_compute. left.
Defined.

Lemma lone_literal_scan_witness :
  scan (squote :: txt "a.js" ++ [dquote])
  = if matches group1 (txt "a.js") then [txt "a.js"] else [].
Proof.
  apply lone_literal_scan; [by right|by left|by_compute].
Defined.

Lemma filename_allowlist_is_exact_witness :
  yields (decode_utf8_ignore (raw "u='x.PHP';")) 2 (txt "x" ++ ch "." :: txt "PHP")
  ↔ ∃ ext r, txt "PHP" = ext ++ r ∧ ext ∈ extensions
             ∧ (r = [] ∨ ∃ r', r = ch "?" :: r' ∧ (ch "|" ∉ r')).
Proof.
  apply (filename_allowlist_is_exact (raw "u='x.PHP';") (txt "u=") (txt ";")
           squote squote (txt "x") (txt "PHP")).
  - reflexivity.
  - by right.
  - by right.
  - done.
  - by_compute.
  - by_compute.
  - by_compute.
Defined.

Lemma stray_byte_is_ignored_witness :
  decode_utf8_ignore (raw "a='" ++ xff :: raw "x.js'") = decode_utf8_ignore (raw "a='" ++ raw "x.js'")
  ∧ extract_urls_from_js (raw "a='" ++ xff :: raw "x.js'")
    = extract_urls_from_js (raw "a='" ++ raw "x.js'").
Proof.
  apply stray_byte_is_ignored.
  - by_compute.
  - right. by vm_compute.
Defined.

Lemma load_custom_provenance_witness :
  (ParsedClass (txt "MyParsed") demo_parser = DefaultParsed demo_plugins
   ∨ ∃ p m n, Some (txt "plugin.py") = Some p ∧ loaded demo_plugins p m
              ∧ Some (txt "MyParsed") = Some n
              ∧ attrs m n = Some (ParsedClass (txt "MyParsed") demo_parser))
  ∧ (DefaultRequests demo_plugins = DefaultRequests demo_plugins
     ∨ ∃ p m n, Some (txt "plugin.py") = Some p ∧ loaded demo_plugins p m
                ∧ None = Some n ∧ attrs m n = Some (DefaultRequests demo_plugins))
  ∧ (given (Some (txt "MyParsed")) = false
     → ParsedClass (txt "MyParsed") demo_parser = DefaultParsed demo_plugins)
  ∧ (given None = false → DefaultRequests demo_plugins = DefaultRequests demo_plugins).
Proof.
  apply (load_custom_provenance demo_plugins (Some (txt "plugin.py"))).
  reflexivity.
Defined.

Lemma load_custom_one_role_witness :
  load_custom demo_plugins (Some (txt "plugin.py")) (Some (txt "MyParsed"), None)
  = Ok (ParsedClass (txt "MyParsed") demo_parser, DefaultRequests demo_plugins)
  ∧ load_custom demo_plugins (Some (txt "plugin.py")) (None, Some (txt "MyRequests"))
    = Ok (DefaultParsed demo_plugins, RequestsClass (txt "MyRequests") demo_fetcher).
Proof.
  split.
  - apply (load_custom_one_role demo_plugins (txt "plugin.py") demo_module
             (txt "MyParsed") (txt "MyParsed")); [by split|done|reflexivity|done].
  - apply (load_custom_one_role demo_plugins (txt "plugin.py") demo_module
             (txt "MyRequests") (txt "MyRequests")); [by split|done|reflexivity|done].
Defined.

Lemma load_custom_nameless_attribute_witness :
  load_custom demo_plugins (Some (txt "plugin.py"))
    (Some (txt "MyParsed"), Some (txt "helper"))
  = Ok (DefaultParsed demo_plugins, DefaultRequests demo_plugins).
Proof.
  apply (load_custom_nameless_attribute demo_plugins (txt "plugin.py") demo_module
           _ _ (txt "helper")); [by split|done|reflexivity|by right].
Defined.

Lemma raising_fetch_aborts_target_witness :
  ∃ e', process_target demo (txt "http://t/") (DefaultParsed_new demo) demo_flaky false
        = Raise e'.
Proof.
  apply (raising_fetch_aborts_target demo (txt "http://t/") (DefaultParsed_new demo)
           demo_flaky false demo_page1 [txt "a.js"; txt "b.js"] (txt "b.js")
           ConnectionError).
  - apply demo_as_completed_perm.
  - reflexivity.
  - done.
  - reflexivity.
  - right. left.
  - reflexivity.
Defined.

Lemma completion_order_is_immaterial_witness :
  process_target demo (txt "http://t/") (DefaultParsed_new demo)
    (DefaultRequests_new demo) false
  = Ok (list_to_set [txt "/api/v1/users"; txt "a.json"])
  ↔ process_target (with_as_completed (λ _ fs, fs) demo) (txt "http://t/")
      (DefaultParsed_new demo) (DefaultRequests_new demo) false
    = Ok (list_to_set [txt "/api/v1/users"; txt "a.json"]).
Proof.
  apply completion_order_is_immaterial; [apply demo_as_completed_perm|done].
Defined.

Lemma demo_references_resolve (u : str) (verify_ssl : bool) :
  u = txt "http://t/" ∨ u = txt "http://u/" →
  ∀ html scripts s,
    DefaultRequests_get demo DEFAULT_TIMEOUT u verify_ssl = Ok (Some html) →
    script_srcs demo html = Ok scripts → s ∈ scripts →
    ∃ js_url, urljoin demo u s = Ok js_url.
Proof.
  intros [-> | ->] html scripts s Hget Hsrc Hs.
  - change (Ok (Some demo_page1) = Ok (Some html)) in Hget. injection Hget as <-.
    change (Ok [txt "a.js"; txt "b.js"] = Ok scripts) in Hsrc. injection Hsrc as <-.
    apply elem_of_cons in Hs as [->|Hs]; [by eexists|].
    apply elem_of_cons in Hs as [->|Hs]; [by eexists|]. by apply elem_of_nil in Hs.
  - change (Ok (Some demo_page2) = Ok (Some html)) in Hget. injection Hget as <-.
    change (Ok [txt "b.js"; txt "c.js"] = Ok scripts) in Hsrc. injection Hsrc as <-.
    apply elem_of_cons in Hs as [->|Hs]; [by eexists|].
    apply elem_of_cons in Hs as [->|Hs]; [by eexists|]. by apply elem_of_nil in Hs.
Defined.

Lemma builtin_target_fails_only_in_urljoin_witness :
  ∃ found,
    process_target demo (txt "http://u/") (DefaultParsed_new demo)
      (DefaultRequests_new demo) true = Ok found
    ∧ ∀ x, x ∈ found → (3 ≤ length x)%nat ∧ Forall (λ c, ¬ is_quote c) x.
Proof.
  apply (builtin_target_fails_only_in_urljoin demo (txt "http://u/") true);
    [apply demo_raises_only_Exceptions|apply demo_as_completed_perm|].
  apply demo_references_resolve. by right.
Defined.

Lemma unresolvable_reference_aborts_target_witness :
  process_target demo (txt "http://w/") (DefaultParsed_new demo)
    (DefaultRequests_new demo) false = Raise ValueError.
Proof.
  apply (unresolvable_reference_aborts_target demo (txt "http://w/")
           (DefaultParsed_new demo) (DefaultRequests_new demo) false demo_page3
           [txt "a.js"] [] (txt "http://[x") ValueError).
  - reflexivity.
  - done.
  - reflexivity.
  - intros s' ->%list_elem_of_singleton. by eexists.
  - reflexivity.
Defined.

Lemma page_without_scripts_witness :
  ParsedInterface.extract_scripts (DefaultParsed_new demo)
    (raw "x='/api/v1/users';y='a.json'") = Ok []
  ∧ process_target demo (txt "http://t/a.js") (DefaultParsed_new demo)
      (DefaultRequests_new demo) false = Ok ∅.
Proof.
  apply page_without_scripts.
  - apply demo_as_completed_perm.
  - reflexivity.
  - done.
  - left. reflexivity.
Defined.

Lemma main_prints_normal_form_witness :
  Sorted str_lt [txt "/api/v1/users"; txt "a.json"]
  ∧ Forall (λ p, strip p = p ∧ p ≠ []) [txt "/api/v1/users"; txt "a.json"].
Proof.
  apply (main_prints_normal_form demo demo_url_args); [done|].
  vm_compute. reflexivity.
Defined.

Lemma main_single_url_returns_witness :
  ∃ found,
    process_target demo (txt "http://t/") (DefaultParsed_new demo)
      (DefaultRequests_new demo) false = Ok found
    ∧ main demo (with_output (Some (txt "out.txt")) demo_url_args) = Ok (clean found).
Proof.
  apply (main_single_url_returns demo (with_output (Some (txt "out.txt")) demo_url_args)
           (txt "http://t/"));
    [apply demo_raises_only_Exceptions|apply demo_as_completed_perm|done..| |done].
  apply demo_references_resolve. by left.
Defined.

Lemma output_file_gets_printed_list_witness :
  main demo (with_output (Some (txt "/out.txt")) demo_url_args) = Raise PermissionError.
Proof.
  destruct (output_file_gets_printed_list demo
              (with_output (Some (txt "/out.txt")) demo_url_args)) as (_ & _ & H & _).
  apply (H [txt "/api/v1/users"; txt "a.json"] (txt "/out.txt")).
  - by vm_compute.
  - reflexivity.
  - done.
  - reflexivity.
Defined.

Lemma demo_plugins_raises_only_Exceptions : raises_only_Exceptions demo_plugins.
Proof. exact demo_raises_only_Exceptions. Qed.

Lemma unusable_substitute_ends_run_witness :
  main demo_plugins
    {| url := Some (txt "http://t/"); file := None;
       custom_module := Some (txt "plugin.py");
       parsed_name := Some (txt "os"); request_name := None;
       workers := 10; ssl := false; output := None |}
  = Raise TypeError
  ∧ main demo_plugins
      {| url := Some (txt "http://t/"); file := None;
         custom_module := Some (txt "plugin.py");
         parsed_name := Some (txt "MyRequests"); request_name := None;
         workers := 10; ssl := false; output := None |}
    = Raise AttributeError.
Proof.
  split.
  - eapply (unusable_substitute_ends_run demo_plugins _ (txt "plugin.py") demo_module
              (txt "os") (txt "http://t/")); [by split|done..|reflexivity].
  - eapply (unusable_substitute_ends_run demo_plugins _ (txt "plugin.py") demo_module
              (txt "MyRequests") (txt "http://t/"));
      [by split|done..|reflexivity|apply demo_plugins_raises_only_Exceptions].
Defined.

Lemma usage_errors_exit_witness : main demo demo_no_args = Raise (SystemExit 2).
Proof. apply usage_errors_exit. by left. Defined.

Lemma targets_file_edge_cases_witness :
  main demo_plugins (demo_file_args (txt "missing.txt")) = Raise FileNotFoundError
  ∧ main demo_plugins (demo_file_args (txt "blank.txt")) = Raise (SystemExit 2).
Proof.
  split.
  - apply (targets_file_edge_cases demo_plugins (demo_file_args (txt "missing.txt"))
             (txt "missing.txt")); [done..|reflexivity].
  - apply (targets_file_edge_cases demo_plugins (demo_file_args (txt "blank.txt"))
             (txt "blank.txt")) with (ls := [txt "  "; []; [9]]);
      [done..|reflexivity|by_compute|done].
Defined.

Lemma unquoted_prefix_is_skipped_witness :
  scan (txt "var u = " ++ txt "'/api/v1';") = scan (txt "'/api/v1';").
Proof. apply unquoted_prefix_is_skipped. by_compute. Defined.

Lemma targets_are_united_witness :
  ∃ all,
    process_all demo [txt "http://t/"; txt "http://u/"] (DefaultParsed_new demo)
      (DefaultRequests_new demo) false ∅ = Ok all
    ∧ ∀ x, x ∈ all ↔
           ∃ u S, u ∈ [txt "http://t/"; txt "http://u/"]
                  ∧ process_target demo u (DefaultParsed_new demo)
                      (DefaultRequests_new demo) false = Ok S
                  ∧ x ∈ S.
Proof.
  apply (targets_are_united demo (DefaultParsed_new demo) (DefaultRequests_new demo) false).
  intros u. rewrite !elem_of_cons, elem_of_nil.
  intros [->|[->|[]]]; eexists; vm_compute; reflexivity.
Defined.
